(** * lcapy discrete sequences: [lcapy/sequence.py]

    A shallow embedding of the [Sequence] class (a list of scalar
    expressions carrying a parallel list of integer indices and a domain
    variable) and of its algebra: logical indexing, [prune], [zeropad],
    [zeroextend], [delay], [extent], [lfilter], [convolve] and the
    transforms [DFT], [IDFT], [ZT], [IZT].

    The scalar engine ([lcapy.expr], built on SymPy) is not part of the
    sources at hand; it enters as an interface ([ScalarValue], [ZToken],
    [ComplexExp]).  Python exceptions are values of an error monad.
    Console advisories ([print]) are not modelled. *)

From Stdlib Require Import String ZArith List Bool Lia.
From Stdlib Require Import QArith Qcanon Field.
Import ListNotations.

Local Open Scope Z_scope.

(** ** Python exceptions as an error monad *)

Inductive exn : Type :=
| IndexError
| ValueError (msg : string)
| FuelExhausted.  (* loop bound of the model reached; see [prune_never_exhausts] *)

Inductive result (A : Type) : Type :=
| Ok (a : A)
| Raise (e : exn).
Arguments Ok {A} a.
Arguments Raise {A} e.

Definition bind {A B} (r : result A) (k : A -> result B) : result B :=
  match r with
  | Ok a => k a
  | Raise e => Raise e
  end.

Notation "x <- r ;; k" := (bind r (fun x => k))
  (at level 61, r at next level, right associativity).

Definition of_option {A} (e : exn) (o : option A) : result A :=
  match o with
  | Some a => Ok a
  | None => Raise e
  end.

(** ** The Python list and range primitives the class relies on *)

Module Py.

Definition len {A} (l : list A) : Z := Z.of_nat (length l).

(** [l[i]]: a negative [i] counts from the end; [None] is IndexError. *)
Definition getitem {A} (l : list A) (i : Z) : option A :=
  if 0 <=? i then nth_error l (Z.to_nat i)
  else if - len l <=? i then nth_error l (Z.to_nat (len l + i))
  else None.

(** Clamping of a slice bound. *)
Definition clamp {A} (l : list A) (i : Z) : nat :=
  if i <? 0 then Z.to_nat (Z.max (len l + i) 0)
  else Z.to_nat (Z.min i (len l)).

(** [l[lo:hi]] and [l[lo:]]. *)
Definition slice {A} (l : list A) (lo hi : Z) : list A :=
  firstn (clamp l hi - clamp l lo) (skipn (clamp l lo) l).

Definition slice_from {A} (l : list A) (lo : Z) : list A :=
  skipn (clamp l lo) l.

(** [range(a, b)]. *)
Definition range (a b : Z) : list Z :=
  map (fun i => a + Z.of_nat i) (seq 0 (Z.to_nat (b - a))).

(** [l.index(x)]: position of the first occurrence; [None] is
    ValueError. *)
Fixpoint index (l : list Z) (x : Z) : option nat :=
  match l with
  | [] => None
  | y :: l' => if y =? x then Some O else option_map S (index l' x)
  end.

(** [min(l)]; [None] is ValueError (empty argument). *)
Definition min (l : list Z) : option Z :=
  match l with
  | [] => None
  | y :: l' => Some (fold_left Z.min l' y)
  end.

(** [enumerate(l)]. *)
Definition enumerate {A} (l : list A) : list (Z * A) :=
  combine (range 0 (len l)) l.

End Py.

(** ** The scalar engine, as an interface *)

(** Arithmetic and comparison of [lcapy.expr.Expr] values. *)
Class ScalarValue (V : Type) : Type := {
  sv_of_Z : Z -> V;             (* [expr(c)] for an integer literal [c] *)
  sv_add : V -> V -> V;
  sv_mul : V -> V -> V;
  sv_div : V -> V -> V;
  sv_eqb : V -> V -> bool       (* [Expr.__eq__] *)
}.

(** The z-domain variable: [sv_zpow k] is [z ** k]. *)
Class ZToken (V : Type) : Type := {
  sv_zpow : Z -> V
}.

(** The complex exponential: [sv_expj p q] is [exp(2 * j * pi * p / q)]. *)
Class ComplexExp (V : Type) : Type := {
  sv_expj : Z -> Z -> V
}.

Inductive Domain : Type := DomN | DomK | DomZ.

Definition Domain_eqb (a b : Domain) : bool :=
  match a, b with
  | DomN, DomN | DomK, DomK | DomZ, DomZ => true
  | _, _ => false
  end.

(** [self.var == d]; an unset [var] is [None]. *)
Definition var_is (v : option Domain) (d : Domain) : bool :=
  match v with
  | Some d' => Domain_eqb d' d
  | None => false
  end.

(** ** The class *)

Record Sequence (V : Type) : Type := mkSequence {
  vals : list V;
  n : list Z;
  var : option Domain;
  start_trunc : bool;
  end_trunc : bool
}.
Arguments mkSequence {V} _ _ _ _ _.
Arguments vals {V} _.
Arguments n {V} _.
Arguments var {V} _.
Arguments start_trunc {V} _.
Arguments end_trunc {V} _.

Section SequenceOps.

Context {V : Type} `{SV : ScalarValue V}.

Definition sv_zero : V := sv_of_Z 0.
Definition sv_one : V := sv_of_Z 1.

(** [v == 0] *)
Definition is_zero (v : V) : bool := sv_eqb v sv_zero.

(** [__init__] when [origin] is not given: the indices default to
    [range(len(seq))]; given ones are stored as they come. *)
Definition new_seq (seq : list V) (ni : option (list Z))
    (v : option Domain) (st et : bool) : Sequence V :=
  let ni := match ni with
            | None => Py.range 0 (Py.len seq)
            | Some l => l
            end in
  mkSequence seq ni v st et.

(** [__init__] *)
Definition Sequence_init (seq : list V) (ni : option (list Z))
    (origin : option Z) (v : option Domain) (st et : bool)
    : result (Sequence V) :=
  match ni, origin with
  | Some _, Some _ => Raise (ValueError "Cannot specify both ni and origin")
  | _, Some o =>
      Ok (new_seq seq (Some (Py.range (- o) (Py.len seq - o))) v st et)
  | _, None => Ok (new_seq seq ni v st et)
  end.

Fixpoint list_eqb {A} (eqb : A -> A -> bool) (l1 l2 : list A) : bool :=
  match l1, l2 with
  | [], [] => true
  | a :: l1', b :: l2' => eqb a b && list_eqb eqb l1' l2'
  | _, _ => false
  end.

(** [__eq__] *)
Definition Sequence_eq (s x : Sequence V) : bool :=
  list_eqb sv_eqb (vals s) (vals x) && list_eqb Z.eqb (n s) (n x).

(** [__getitem__] *)
Definition getitem (s : Sequence V) (idx : Z) : result V :=
  match Py.index (n s) idx with
  | None => Ok sv_zero
  | Some nindex => of_option IndexError (nth_error (vals s) nindex)
  end.

(** [origin] (getter) *)
Definition origin (s : Sequence V) : result Z :=
  m <- of_option (ValueError "min() arg is an empty sequence")
         (Py.min (n s)) ;;
  Ok (- m).

(** The two [while vals[m] == 0: m += step] loops of [prune]. *)
Fixpoint scan (step : Z) (l : list V) (fuel : nat) (m : Z) : result Z :=
  match fuel with
  | O => Raise FuelExhausted
  | S fuel' =>
      v <- of_option IndexError (Py.getitem l m) ;;
      if is_zero v then scan step l fuel' (m + step) else Ok m
  end.

Definition prune_fuel (l : list V) : nat := (2 * length l + 2)%nat.

(** [prune] *)
Definition prune (s : Sequence V) : result (Sequence V) :=
  let l := vals s in
  m1 <- scan 1 l (prune_fuel l) 0 ;;
  let m2 := Py.len l - 1 in
  v <- of_option IndexError (Py.getitem l m2) ;;
  if negb (is_zero v) then
    Ok (new_seq (Py.slice_from l m1) (Some (Py.slice_from (n s) m1))
          None false false)
  else
    m2 <- scan (-1) l (prune_fuel l) m2 ;;
    Ok (new_seq (Py.slice l m1 (m2 + 1))
          (Some (Py.slice (n s) m1 (m2 + 1))) None false false).

(** [zeropad] *)
Definition zeropad (s : Sequence V) (M : Z) : result (Sequence V) :=
  let l := vals s ++ repeat sv_zero (Z.to_nat M) in
  last <- of_option IndexError (Py.getitem (n s) (-1)) ;;
  let ni := n s ++ Py.range (last + 1) (Py.len l) in
  Ok (new_seq l (Some ni) (var s) false false).

(** [extent]: positions of the nonzero elements, then
    [max(w) - min(w) + 1]. *)
Definition nonzero_positions (l : list V) : list Z :=
  map fst (filter (fun p => negb (is_zero (snd p))) (Py.enumerate l)).

Definition extent (s : Sequence V) : Z :=
  match nonzero_positions (vals s) with
  | [] => 0
  | p :: w => fold_left Z.max w p - fold_left Z.min w p + 1
  end.

(** [lfilter].  Each [try: ... except: pass] skips the tap whose list
    access raises; Python list access with a negative index counts from
    the end and raises only below [-len]. *)
Definition fir_tap (x : list V) (a0 : V) (idx : Z) (acc : V)
    (mb : Z * V) : V :=
  let (m, b1) := mb in
  match Py.getitem x (idx - m) with
  | Some xv => sv_add acc (sv_div (sv_mul b1 xv) a0)
  | None => acc
  end.

Definition iir_tap (y : list V) (a0 : V) (yn : V) (ma : Z * V) : V :=
  let (m, a1) := ma in
  match Py.getitem y (- m - 2) with
  | Some yv => sv_add yn (sv_div (sv_mul a1 yv) a0)
  | None => yn
  end.

Definition lfilter_step (x b a : list V) (a0 : V) (y : list V)
    (nx : Z * V) : list V :=
  let idx := fst nx in
  let y1 := fold_left (fir_tap x a0 idx) (Py.enumerate b) sv_zero in
  let yn := fold_left (iir_tap (y ++ [y1]) a0)
              (Py.enumerate (Py.slice_from a 1)) y1 in
  y ++ [yn].

Definition lfilter (s : Sequence V) (b a : option (list V))
    : result (Sequence V) :=
  let b := match b with None => [] | Some l => l end in
  let a := match a with None => [sv_one] | Some l => l end in
  let x := vals s in
  a0 <- of_option IndexError (Py.getitem a 0) ;;
  let y := fold_left (lfilter_step x b a a0) (Py.enumerate x) [] in
  Ok (new_seq y (Some (n s)) (var s) false false).

(** [convolve] *)
Definition convolve (s : Sequence V) (h : list V) (mode : string)
    : result (Sequence V) :=
  let x := s in
  let h := new_seq h None None false false in
  let Lx := extent x in
  let Lh := extent h in
  let Ly := Lx + Lh - 1 in
  x <- (if String.eqb mode "full" then zeropad x (Ly - Lx)
        else if String.eqb mode "same" then zeropad x (Z.max Lx Ly - Lx)
        else Raise (ValueError ("Unknown mode " ++ mode))) ;;
  lfilter x (Some (vals h)) (Some [sv_one]).

(** [int(m)] truncates towards zero. *)
Definition Qtrunc (m : Q) : Z := Z.quot (Qnum m) (Zpos (Qden m)).

(** [delay]; the delay is any number, here a rational. *)
Definition delay (s : Sequence V) (m : Q) : result (Sequence V) :=
  if negb (Qeq_bool m (inject_Z (Qtrunc m))) then
    Raise (ValueError "Non-integer delay")
  else
    o <- origin s ;;
    let o := o - Qtrunc m in
    let ni := Py.range (- o) (Py.len (vals s) - o) in
    Ok (new_seq (vals s) (Some ni) (var s) false false).

(** [zeroextend] *)
Definition zeroextend (s : Sequence V) : result (Sequence V) :=
  let ni := n s in
  let l := vals s in
  first <- of_option IndexError (Py.getitem ni 0) ;;
  if first >? 0 then
    last <- of_option IndexError (Py.getitem ni (-1)) ;;
    Ok (new_seq (repeat sv_zero (Z.to_nat first) ++ l)
          (Some (Py.range 0 (last + 1))) (var s)
          (start_trunc s) (end_trunc s))
  else
    last <- of_option IndexError (Py.getitem ni (-1)) ;;
    if last <? 0 then
      Ok (new_seq (l ++ repeat sv_zero (Z.to_nat (- last)))
            (Some (Py.range first 1)) (var s)
            (start_trunc s) (end_trunc s))
    else
      Ok (new_seq l (Some ni) (var s) (start_trunc s) (end_trunc s)).

(** A [for] loop whose body may raise. *)
Fixpoint mapM {A B} (f : A -> result B) (l : list A) : result (list B) :=
  match l with
  | [] => Ok []
  | a :: l' => b <- f a ;; bs <- mapM f l' ;; Ok (b :: bs)
  end.

Fixpoint foldM {A B} (f : B -> A -> result B) (l : list A) (b : B)
    : result B :=
  match l with
  | [] => Ok b
  | a :: l' => b' <- f b a ;; foldM f l' b'
  end.

Context `{CE : ComplexExp V}.

(** [DFT] *)
Definition DFT (s : Sequence V) : result (Sequence V) :=
  let l := vals s in
  let N := Py.len l in
  results <-
    mapM (fun ki =>
      foldM (fun res ni =>
        v <- of_option IndexError (Py.getitem l ni) ;;
        nn <- of_option IndexError (Py.getitem (n s) ni) ;;
        Ok (sv_add res (sv_mul v (sv_expj (- (nn * ki)) N))))
        (Py.range 0 N) sv_zero)
      (Py.range 0 N) ;;
  Ok (new_seq results None (Some DomK) false false).

(** [IDFT] *)
Definition IDFT (s : Sequence V) : result (Sequence V) :=
  let l := vals s in
  let N := Py.len l in
  results <-
    mapM (fun ni =>
      res <- foldM (fun res ki =>
               v <- of_option IndexError (Py.getitem l ki) ;;
               kk <- of_option IndexError (Py.getitem (n s) ki) ;;
               Ok (sv_add res (sv_mul v (sv_expj (ni * kk) N))))
               (Py.range 0 N) sv_zero ;;
      Ok (sv_div res (sv_of_Z N)))
      (Py.range 0 N) ;;
  Ok (new_seq results None (Some DomN) false false).

Context `{ZT_ : ZToken V}.

(** The loop shared by [ZT] ([sign = -1]) and [IZT] ([sign = 1]):
    [vals[ni] * z**(sign * ni)] for [ni] in [range(N)]. *)
Definition zterms (sign : Z) (l : list V) : list V :=
  map (fun p => sv_mul (snd p) (sv_zpow (sign * fst p))) (Py.enumerate l).

(** [ZT].  In the frequency domain it is [self.IDFT().ZT()]; the
    sequence [IDFT] returns is tagged [n], so the inner call runs the
    loop. *)
Definition ZT (s : Sequence V) : result (Sequence V) :=
  if var_is (var s) DomZ then
    Ok (new_seq (zterms (-1) (vals s)) None (Some DomZ) false false)
  else if var_is (var s) DomK then
    r <- IDFT s ;;
    Ok (new_seq (zterms (-1) (vals r)) None (Some DomZ) false false)
  else
    Ok (new_seq (zterms (-1) (vals s)) None (Some DomZ) false false).

(** [IZT] *)
Definition IZT (s : Sequence V) : result (Sequence V) :=
  if var_is (var s) DomN then
    Ok (new_seq (zterms 1 (vals s)) None (Some DomN) false false)
  else if var_is (var s) DomK then
    r <- IDFT s ;;
    Ok (new_seq (zterms 1 (vals r)) None (Some DomN) false false)
  else
    Ok (new_seq (zterms 1 (vals s)) None (Some DomN) false false).

End SequenceOps.

(** ** Two implementations of the scalar interface *)

(** Exact rational numbers.  [exp(2 j pi p / q)] is rational exactly
    when [q] divides [2 p], where it is [(-1) ^ (2 p / q)]; the instance
    answers [0] elsewhere, and is only used with [q] in [{1, 2}]. *)
Module QcScalar.

Definition of_Z (z : Z) : Qc := Q2Qc (inject_Z z).

Definition expj (p q : Z) : Qc :=
  if (2 * p) mod q =? 0 then
    if Z.even ((2 * p) / q) then of_Z 1 else of_Z (-1)
  else of_Z 0.

#[global] Instance scalar : ScalarValue Qc := {
  sv_of_Z := of_Z;
  sv_add := Qcplus;
  sv_mul := Qcmult;
  sv_div := Qcdiv;
  sv_eqb := Qc_eq_bool
}.

#[global] Instance cexp : ComplexExp Qc := { sv_expj := expj }.

End QcScalar.

(** Laurent polynomials in [z] with rational coefficients:
    [mk lo [c0; c1; ...]] is [c0 z^lo + c1 z^(lo+1) + ...], kept with
    nonzero first and last coefficient ([mk 0 []] is zero).  Division is
    by a monomial; other divisors leave the Laurent polynomials and the
    instance answers zero for them. *)
Module Laurent.

Record t : Type := mk { lo : Z; cs : list Qc }.

Fixpoint strip (l : list Qc) : nat * list Qc :=
  match l with
  | [] => (O, [])
  | c :: l' =>
      if Qc_eq_bool c (Q2Qc 0) then
        let (k, r) := strip l' in (S k, r)
      else (O, l)
  end.

Definition norm (p : t) : t :=
  let (k, l) := strip (cs p) in
  match rev (snd (strip (rev l))) with
  | [] => mk 0 []
  | l' => mk (lo p + Z.of_nat k) l'
  end.

Fixpoint zip_add (l1 l2 : list Qc) : list Qc :=
  match l1, l2 with
  | [], l | l, [] => l
  | a :: l1', b :: l2' => Qcplus a b :: zip_add l1' l2'
  end.

Definition pad (k : Z) (l : list Qc) : list Qc :=
  repeat (Q2Qc 0) (Z.to_nat k) ++ l.

Definition add (p q : t) : t :=
  let o := Z.min (lo p) (lo q) in
  norm (mk o (zip_add (pad (lo p - o) (cs p)) (pad (lo q - o) (cs q)))).

Definition scale (c : Qc) (l : list Qc) : list Qc := map (Qcmult c) l.

Fixpoint mul_cs (l1 l2 : list Qc) : list Qc :=
  match l1 with
  | [] => []
  | a :: l1' => zip_add (scale a l2) (Q2Qc 0 :: mul_cs l1' l2)
  end.

Definition mul (p q : t) : t :=
  norm (mk (lo p + lo q) (mul_cs (cs p) (cs q))).

Definition div (p q : t) : t :=
  match norm q with
  | mk e [c] => norm (mk (lo p - e) (scale (Qcinv c) (cs p)))
  | _ => mk 0 []
  end.

Definition eqb (p q : t) : bool :=
  let p := norm p in
  let q := norm q in
  (lo p =? lo q) && list_eqb Qc_eq_bool (cs p) (cs q).

Definition const (c : Qc) : t := norm (mk 0 [c]).

Definition zpow (k : Z) : t := mk k [Q2Qc 1].

#[global] Instance scalar : ScalarValue t := {
  sv_of_Z z := const (QcScalar.of_Z z);
  sv_add := add;
  sv_mul := mul;
  sv_div := div;
  sv_eqb := eqb
}.

#[global] Instance ztoken : ZToken t := { sv_zpow := zpow }.

#[global] Instance cexp : ComplexExp t := {
  sv_expj p q := const (QcScalar.expj p q)
}.

End Laurent.

Definition qseq (l : list Z) (ni : option (list Z)) (v : option Domain)
    : Sequence Qc :=
  new_seq (map QcScalar.of_Z l) ni v false false.

Definition lseq (l : list Z) (ni : option (list Z)) (v : option Domain)
    : Sequence Laurent.t :=
  new_seq (map sv_of_Z l) ni v false false.

(** ** The data-model invariant *)

Fixpoint strictly_increasing (l : list Z) : bool :=
  match l with
  | a :: (b :: _) as l' => (a <? b) && strictly_increasing l'
  | _ => true
  end.

Definition invariant {V} (s : Sequence V) : bool :=
  (length (vals s) =? length (n s))%nat && strictly_increasing (n s).

(** Zero-based indices [0 .. N-1], the constructor's default. *)
Definition zero_based {V} (s : Sequence V) : Prop :=
  n s = Py.range 0 (Py.len (vals s)).

(** Contiguous indices [n0 .. n0+N-1]. *)
Definition contiguous {V} (s : Sequence V) (n0 : Z) : Prop :=
  n s = Py.range n0 (n0 + Py.len (vals s)).


(** The sum a transform loop accumulates: [f 0 + f 1 + ... + f (N-1)],
    added from the left onto zero. *)
Definition sum_upto {V} `{ScalarValue V} (f : nat -> V) (N : nat) : V :=
  fold_left (fun res i => sv_add res (f i)) (seq 0 N) sv_zero.

(** The bins of [DFT] and the samples of [IDFT] by position, on lists. *)
Definition dft_bin {V} `{ScalarValue V} `{ComplexExp V}
    (l : list V) (ns : list Z) (ki : nat) : V :=
  sum_upto (fun i =>
    sv_mul (nth i l sv_zero)
      (sv_expj (- (nth i ns 0 * Z.of_nat ki)) (Py.len l))) (length l).

Definition idft_sample {V} `{ScalarValue V} `{ComplexExp V}
    (l : list V) (ks : list Z) (ni : nat) : V :=
  sv_div
    (sum_upto (fun i =>
       sv_mul (nth i l sv_zero)
         (sv_expj (Z.of_nat ni * nth i ks 0) (Py.len l))) (length l))
    (sv_of_Z (Py.len l)).

(** What the extent of a convolution asks of the scalar engine: zero is
    neutral for addition and absorbing for multiplication, division by
    one changes nothing, comparison with zero is exact, and a product of
    nonzero values is nonzero. *)
Class ZeroLaws (V : Type) `{ScalarValue V} : Prop := {
  add_zero_l : forall v, sv_add sv_zero v = v;
  add_zero_r : forall v, sv_add v sv_zero = v;
  mul_zero_l : forall v, sv_mul sv_zero v = sv_zero;
  mul_zero_r : forall v, sv_mul v sv_zero = sv_zero;
  div_one : forall v, sv_div v sv_one = v;
  is_zero_exact : forall v, is_zero v = true <-> v = sv_zero;
  mul_nonzero : forall a b,
    is_zero a = false -> is_zero b = false -> is_zero (sv_mul a b) = false
}.


(** One output sample of the FIR part of [lfilter]. *)
Definition fir_sample {V} `{ScalarValue V} (x b : list V) (a0 : V)
    (idx : Z) : V :=
  fold_left (fir_tap x a0 idx) (Py.enumerate b) sv_zero.


(** Position [m] holds the first, respectively the last, nonzero value
    of [l]. *)
Definition first_nonzero_at {V} `{ScalarValue V} (l : list V) (m : nat)
    : Prop :=
  (exists v, nth_error l m = Some v /\ is_zero v = false)
  /\ forall j v, (j < m)%nat -> nth_error l j = Some v -> is_zero v = true.

Definition last_nonzero_at {V} `{ScalarValue V} (l : list V) (m : nat)
    : Prop :=
  (exists v, nth_error l m = Some v /\ is_zero v = false)
  /\ forall j v, (m < j)%nat -> nth_error l j = Some v -> is_zero v = true.


(** The recursion the documentation names, written from its formula:
    [y[n] * a[0] = sum_m b[m] * x[n-m] - sum_(m>=1) a[m] * y[n-m]], a tap
    outside the stored positions contributing nothing. *)
Module Recursion.

Definition tap (c src : list Qc) (pos m : Z) : Qc :=
  if (0 <=? pos - m) && (pos - m <? Py.len src) then
    match nth_error c (Z.to_nat m), nth_error src (Z.to_nat (pos - m)) with
    | Some cm, Some v => Qcmult cm v
    | _, _ => Q2Qc 0
    end
  else Q2Qc 0.

Definition taps (c src : list Qc) (pos from : Z) : Qc :=
  fold_left Qcplus (map (tap c src pos) (Py.range from (Py.len c)))
    (Q2Qc 0).

Definition step (b a x : list Qc) (a0 : Qc) (y : list Qc) (pos : Z)
    : list Qc :=
  y ++ [Qcdiv (Qcminus (taps b x pos 0) (taps a y pos 1)) a0].

Definition lfilter (b a x : list Qc) : list Qc :=
  match a with
  | [] => []
  | a0 :: _ => fold_left (step b a x a0) (Py.range 0 (Py.len x)) []
  end.

End Recursion.

(** ** The remaining methods of the class *)

Section MoreOps.

Context {V : Type} `{SV : ScalarValue V} `{CE : ComplexExp V}
  `{ZK : ZToken V}.




(** [copy]; [super().copy()] is the list of the values. *)
Definition copy (s : Sequence V) : Sequence V :=
  new_seq (vals s) (Some (n s)) (var s) false false.

(** The argument of [__call__]: one of the domain variables [n], [k],
    [z], or anything else, which is used as a logical index. *)
Inductive CallArg : Type :=
| Token (d : Domain)
| Index (i : Z).

(** [__call__]: a sequence for a domain variable, an element otherwise. *)
Definition call (s : Sequence V) (arg : CallArg)
    : result (Sequence V + V) :=
  match arg with
  | Token DomN =>
      if var_is (var s) DomN then Ok (inl (copy s))
      else if var_is (var s) DomK then r <- IDFT s ;; Ok (inl r)
      else r <- IZT s ;; Ok (inl r)
  | Token DomK =>
      if var_is (var s) DomK then Ok (inl (copy s))
      else if var_is (var s) DomZ then
        t <- IZT s ;; r <- DFT t ;; Ok (inl r)
      else r <- DFT s ;; Ok (inl r)
  | Token DomZ =>
      if var_is (var s) DomZ then Ok (inl (copy s))
      else if var_is (var s) DomK then
        t <- IDFT s ;; r <- ZT t ;; Ok (inl r)
      else r <- ZT s ;; Ok (inl r)
  | Index i => v <- getitem s i ;; Ok (inr v)
  end.

End MoreOps.

(** The circular FIR sample: [sum_m b[m] * x[(idx - m) mod N] / a0], added
    from the left onto zero. *)
Definition circular_sample {V} `{ScalarValue V} (x b : list V) (a0 : V)
    (idx : Z) : V :=
  fold_left
    (fun acc p =>
       sv_add acc
         (sv_div
            (sv_mul (snd p)
               (nth (Z.to_nat ((idx - fst p) mod Py.len x)) x sv_zero))
            a0))
    (Py.enumerate b) sv_zero.

(** A transform of [s] landed in domain [d]: [r] has as many values as
    [s], the indices [0 .. N-1] and the tag [d]. *)
Definition lands_in {V} (d : Domain) (s r : Sequence V) : Prop :=
  length (vals r) = length (vals s) /\ zero_based r /\ var r = Some d.

(** * Properties *)

(** ** Lists, ranges and indexing *)

Lemma range_length a b : length (Py.range a b) = Z.to_nat (b - a).
Proof. unfold Py.range. now rewrite length_map, length_seq. Qed.

Lemma range_nth a b i :
  (i < Z.to_nat (b - a))%nat ->
  nth_error (Py.range a b) i = Some (a + Z.of_nat i).
Proof.
  intros H. unfold Py.range.
  rewrite nth_error_map, nth_error_seq.
  destruct (Nat.ltb_spec i (Z.to_nat (b - a))); [reflexivity | lia].
Qed.

Lemma range_nth_inv a b i x :
  nth_error (Py.range a b) i = Some x ->
  (i < Z.to_nat (b - a))%nat /\ x = a + Z.of_nat i.
Proof.
  intros H.
  assert (Hi : (i < Z.to_nat (b - a))%nat).
  { rewrite <- (range_length a b). apply nth_error_Some. congruence. }
  split; [exact Hi |]. rewrite (range_nth a b i Hi) in H. congruence.
Qed.

Lemma range_nil a b : b <= a -> Py.range a b = [].
Proof.
  intros H. unfold Py.range. replace (Z.to_nat (b - a)) with O by lia.
  reflexivity.
Qed.

Lemma range_cons a b : a < b -> Py.range a b = a :: Py.range (a + 1) b.
Proof.
  intros H. unfold Py.range.
  replace (Z.to_nat (b - a)) with (S (Z.to_nat (b - (a + 1)))) by lia.
  cbn [seq map]. f_equal; [lia |].
  rewrite <- seq_shift, map_map. apply map_ext. intros; lia.
Qed.

Lemma range_snoc a b : a <= b -> Py.range a (b + 1) = Py.range a b ++ [b].
Proof.
  intros H. unfold Py.range.
  replace (Z.to_nat (b + 1 - a)) with (Z.to_nat (b - a) + 1)%nat by lia.
  rewrite seq_app, map_app. cbn. do 2 f_equal. lia.
Qed.

Lemma range_app a b c :
  a <= b -> b <= c -> Py.range a c = Py.range a b ++ Py.range b c.
Proof.
  intros Hab Hbc. unfold Py.range.
  replace (Z.to_nat (c - a)) with (Z.to_nat (b - a) + Z.to_nat (c - b))%nat
    by lia.
  rewrite seq_app, map_app. f_equal.
  cbn. rewrite <- (Nat.add_0_r (Z.to_nat (b - a))) at 1.
  rewrite Nat.add_comm.
  generalize (Z.to_nat (c - b)) as k. intros k.
  replace (seq (0 + Z.to_nat (b - a)) k)
    with (map (fun i => (Z.to_nat (b - a) + i)%nat) (seq 0 k)).
  - rewrite map_map. apply map_ext. intros; lia.
  - clear. generalize (Z.to_nat (b - a)) as m. intros m.
    generalize O as st. induction k as [|k IH]; intros st; cbn; [reflexivity |].
    f_equal; [lia |]. apply IH.
Qed.

Lemma increasing_cons2 x y l :
  strictly_increasing (x :: y :: l) = (x <? y) && strictly_increasing (y :: l).
Proof. reflexivity. Qed.

Lemma increasing_range a b : strictly_increasing (Py.range a b) = true.
Proof.
  unfold Py.range. generalize O as st.
  induction (Z.to_nat (b - a)) as [|k IH]; intros st; [reflexivity |].
  destruct k as [|k]; [reflexivity |].
  change (seq st (S (S k))) with (st :: S st :: seq (S (S st)) k).
  cbn [map]. rewrite increasing_cons2.
  specialize (IH (S st)). cbn [seq map] in IH. rewrite IH, andb_true_r.
  apply Z.ltb_lt. lia.
Qed.

Lemma getitem_nonneg {A} (l : list A) i :
  0 <= i -> Py.getitem l i = nth_error l (Z.to_nat i).
Proof.
  intros H. unfold Py.getitem.
  destruct (Z.leb_spec 0 i); [reflexivity | lia].
Qed.

Lemma getitem_neg {A} (l : list A) i :
  i < 0 -> - Py.len l <= i ->
  Py.getitem l i = nth_error l (Z.to_nat (Py.len l + i)).
Proof.
  intros H1 H2. unfold Py.getitem.
  destruct (Z.leb_spec 0 i); [lia |].
  destruct (Z.leb_spec (- Py.len l) i); [reflexivity | lia].
Qed.

Lemma getitem_below {A} (l : list A) i :
  i < - Py.len l -> Py.getitem l i = None.
Proof.
  intros H. unfold Py.getitem. pose proof (Zle_0_nat (length l)).
  unfold Py.len in *.
  destruct (Z.leb_spec 0 i); [lia |].
  destruct (Z.leb_spec (- Z.of_nat (length l)) i); [lia | reflexivity].
Qed.

Lemma getitem_last {A} (l : list A) (a : A) :
  Py.getitem (l ++ [a]) (-1) = Some a.
Proof.
  rewrite getitem_neg; unfold Py.len; rewrite ?length_app; cbn; try lia.
  replace (Z.to_nat (Z.of_nat (length l + 1) + -1)) with (length l) by lia.
  rewrite nth_error_app2 by lia. now rewrite Nat.sub_diag.
Qed.

Lemma increasing_tail a l :
  strictly_increasing (a :: l) = true -> strictly_increasing l = true.
Proof.
  destruct l as [|b l]; [reflexivity |].
  rewrite increasing_cons2. intros H. now apply andb_prop in H.
Qed.

Lemma increasing_head_lt a l x :
  strictly_increasing (a :: l) = true -> In x l -> a < x.
Proof.
  revert a. induction l as [|b l IH]; intros a H Hin; [contradiction |].
  rewrite increasing_cons2 in H. apply andb_prop in H as [Hab Hl].
  apply Z.ltb_lt in Hab. destruct Hin as [<-|Hin]; [exact Hab |].
  specialize (IH b Hl Hin). lia.
Qed.

Lemma index_of_increasing l i x :
  strictly_increasing l = true ->
  nth_error l i = Some x -> Py.index l x = Some i.
Proof.
  revert i. induction l as [|y l IH]; intros i Hinc Hnth.
  - destruct i; discriminate.
  - destruct i as [|i]; cbn in Hnth |- *.
    + injection Hnth as ->. now rewrite Z.eqb_refl.
    + assert (Hlt : y < x).
      { eapply increasing_head_lt; [exact Hinc |].
        eapply nth_error_In; exact Hnth. }
      destruct (Z.eqb_spec y x); [lia |].
      rewrite (IH i (increasing_tail _ _ Hinc) Hnth). reflexivity.
Qed.

Lemma index_not_in l x : ~ In x l -> Py.index l x = None.
Proof.
  induction l as [|y l IH]; intros Hn; [reflexivity |]. cbn.
  destruct (Z.eqb_spec y x) as [->|_]; [exfalso; apply Hn; now left |].
  rewrite IH; [reflexivity |]. intros H. apply Hn. now right.
Qed.

Section Lookup.

Context {V : Type} `{SV : ScalarValue V}.

(** C9.  The logical lookup of an [idx] that is not among the indices
    returns the zero scalar, whatever the sequence: it is not an error,
    and [s.get(100)] is zero when 100 is not an index.  On a sequence that
    satisfies the data-model invariant, the lookup of a stored index
    returns the value stored at its position, so that no lookup is an
    error. *)
Theorem getitem_logical_lookup (s : Sequence V) (idx : Z) :
  (~ In idx (n s) -> getitem s idx = Ok sv_zero)
  /\ (~ In 100 (n s) -> getitem s 100 = Ok (sv_of_Z 0))
  /\ (invariant s = true ->
      (forall i, nth_error (n s) i = Some idx ->
         exists v, nth_error (vals s) i = Some v /\ getitem s idx = Ok v)
      /\ exists v, getitem s idx = Ok v).
Proof.
  assert (Hmiss : forall k, ~ In k (n s) -> getitem s k = Ok sv_zero).
  { intros k Hk. unfold getitem. now rewrite index_not_in. }
  split; [apply Hmiss |]. split; [apply Hmiss |].
  intros Hinv. unfold invariant in Hinv.
  apply andb_prop in Hinv as [Hlen Hinc]. apply Nat.eqb_eq in Hlen.
  assert (Hhit : forall i, nth_error (n s) i = Some idx ->
            exists v, nth_error (vals s) i = Some v /\ getitem s idx = Ok v).
  { intros i Hi. unfold getitem.
    rewrite (index_of_increasing _ _ _ Hinc Hi).
    destruct (nth_error (vals s) i) as [v|] eqn:Hv.
    - exists v. split; reflexivity.
    - apply nth_error_None in Hv.
      assert (i < length (n s))%nat by (apply nth_error_Some; congruence).
      lia. }
  split; [exact Hhit |].
  destruct (in_dec Z.eq_dec idx (n s)) as [Hin|Hout].
  - apply In_nth_error in Hin as [i Hi].
    destruct (Hhit i Hi) as [v [_ Hv]]. now exists v.
  - exists sv_zero. now apply Hmiss.
Qed.

End Lookup.

Lemma getitem_logical_lookup_witness :
  invariant (qseq [5; 6; 7] (Some [-1; 0; 1]) None) = true
  /\ exists v, getitem (qseq [5; 6; 7] (Some [-1; 0; 1]) None) 0 = Ok v.
Proof.
  split; [reflexivity |].
  apply (proj2 (proj2 (getitem_logical_lookup
                         (qseq [5; 6; 7] (Some [-1; 0; 1]) None) 0))).
  reflexivity.
Defined.

(** ** [prune] *)

Section Prune.

Context {V : Type} `{SV : ScalarValue V}.

Lemma nth_error_forall_zero (zs : list V) j v :
  forallb is_zero zs = true -> nth_error zs j = Some v -> is_zero v = true.
Proof.
  intros Hz Hj. rewrite forallb_forall in Hz. apply Hz.
  eapply nth_error_In; exact Hj.
Qed.

Lemma getitem_app_mid (pre suf : list V) (v : V) :
  Py.getitem (pre ++ v :: suf) (Py.len pre) = Some v.
Proof.
  unfold Py.len. rewrite getitem_nonneg by lia. rewrite Nat2Z.id.
  rewrite nth_error_app2 by lia. now rewrite Nat.sub_diag.
Qed.

Lemma getitem_at_len (l : list V) : Py.getitem l (Py.len l) = None.
Proof.
  unfold Py.len. rewrite getitem_nonneg by lia. rewrite Nat2Z.id.
  apply nth_error_None. lia.
Qed.

(** The forward scan on an all-zero tail runs off the end. *)
Lemma scan_up_zeros (pre zs : list V) fuel :
  forallb is_zero zs = true -> (length zs < fuel)%nat ->
  scan 1 (pre ++ zs) fuel (Py.len pre) = Raise IndexError.
Proof.
  revert pre fuel. induction zs as [|z zs IH]; intros pre fuel Hz Hf.
  - destruct fuel; [cbn in Hf; lia |]. cbn [scan].
    rewrite app_nil_r, getitem_at_len. reflexivity.
  - cbn in Hz. apply andb_prop in Hz as [Hz0 Hz].
    destruct fuel; [cbn in Hf; lia |]. cbn [scan].
    rewrite getitem_app_mid. cbn [of_option bind]. rewrite Hz0.
    replace (pre ++ z :: zs) with ((pre ++ [z]) ++ zs)
      by now rewrite <- app_assoc.
    replace (Py.len pre + 1) with (Py.len (pre ++ [z]))
      by (unfold Py.len; rewrite length_app; cbn; lia).
    apply IH; [exact Hz | cbn in Hf; lia].
Qed.

(** The forward scan stops at the first nonzero element. *)
Lemma scan_up_hit (pre zs : list V) v rest fuel :
  forallb is_zero zs = true -> is_zero v = false ->
  (length zs < fuel)%nat ->
  scan 1 (pre ++ zs ++ v :: rest) fuel (Py.len pre)
  = Ok (Py.len (pre ++ zs)).
Proof.
  revert pre fuel. induction zs as [|z zs IH]; intros pre fuel Hz Hv Hf.
  - destruct fuel; [cbn in Hf; lia |]. cbn [scan app].
    rewrite getitem_app_mid. cbn [of_option bind]. rewrite Hv.
    now rewrite app_nil_r.
  - cbn in Hz. apply andb_prop in Hz as [Hz0 Hz].
    destruct fuel; [cbn in Hf; lia |]. cbn [scan].
    change ((z :: zs) ++ v :: rest) with (z :: (zs ++ v :: rest)).
    rewrite getitem_app_mid. cbn [of_option bind]. rewrite Hz0.
    replace (pre ++ z :: zs ++ v :: rest)
      with ((pre ++ [z]) ++ zs ++ v :: rest) by now rewrite <- app_assoc.
    replace (Py.len pre + 1) with (Py.len (pre ++ [z]))
      by (unfold Py.len; rewrite length_app; cbn; lia).
    rewrite IH by (try assumption; cbn in Hf; lia).
    now rewrite <- app_assoc.
Qed.

(** The backward scan stops at the last nonzero element. *)
Lemma scan_down_hit (pre : list V) v (zs : list V) (j : nat) fuel :
  forallb is_zero zs = true -> is_zero v = false ->
  (j <= length zs)%nat -> (j < fuel)%nat ->
  scan (-1) (pre ++ v :: zs) fuel (Py.len pre + Z.of_nat j)
  = Ok (Py.len pre).
Proof.
  intros Hz Hv. revert fuel. induction j as [|j IH]; intros fuel Hj Hf.
  - destruct fuel; [lia |]. cbn [scan]. rewrite Z.add_0_r.
    rewrite getitem_app_mid. cbn [of_option bind]. now rewrite Hv.
  - destruct fuel; [lia |]. cbn [scan].
    destruct (nth_error zs j) as [z|] eqn:Hzj;
      [| apply nth_error_None in Hzj; lia].
    assert (Hg : Py.getitem (pre ++ v :: zs) (Py.len pre + Z.of_nat (S j))
                 = Some z).
    { unfold Py.len. rewrite getitem_nonneg by lia.
      replace (Z.to_nat (Z.of_nat (length pre) + Z.of_nat (S j)))
        with (length pre + S j)%nat by lia.
      rewrite nth_error_app2 by lia.
      replace (length pre + S j - length pre)%nat with (S j) by lia.
      exact Hzj. }
    rewrite Hg. cbn [of_option bind].
    rewrite (nth_error_forall_zero _ _ _ Hz Hzj).
    replace (Py.len pre + Z.of_nat (S j) + -1)
      with (Py.len pre + Z.of_nat j) by lia.
    apply IH; lia.
Qed.

(** A list with a nonzero element splits at its first and at its last
    nonzero element. *)
Lemma split_first_nonzero (l : list V) :
  forallb is_zero l = false ->
  exists zs v rest,
    l = zs ++ v :: rest /\ forallb is_zero zs = true /\ is_zero v = false.
Proof.
  induction l as [|a l IH]; [discriminate |]. cbn. intros H.
  destruct (is_zero a) eqn:Ha.
  - destruct (IH H) as (zs & v & rest & -> & Hz & Hv).
    exists (a :: zs), v, rest. cbn. now rewrite Ha, Hz.
  - exists [], a, l. auto.
Qed.

Lemma split_last_nonzero (l : list V) :
  forallb is_zero l = false ->
  exists pre v zs,
    l = pre ++ v :: zs /\ forallb is_zero zs = true /\ is_zero v = false.
Proof.
  induction l as [|a l IH]; [discriminate |]. cbn. intros H.
  destruct (forallb is_zero l) eqn:Hl.
  - rewrite andb_true_r in H. exists [], a, l. auto.
  - destruct (IH eq_refl) as (pre & v & zs & -> & Hz & Hv).
    exists (a :: pre), v, zs. auto.
Qed.

Lemma prune_scan_up (l zs : list V) v rest :
  l = zs ++ v :: rest -> forallb is_zero zs = true -> is_zero v = false ->
  scan 1 l (prune_fuel l) 0 = Ok (Z.of_nat (length zs)).
Proof.
  intros -> Hz Hv.
  pose proof (scan_up_hit [] zs v rest
                (prune_fuel (zs ++ v :: rest)) Hz Hv) as H.
  cbn [app] in H. apply H.
  unfold prune_fuel. rewrite length_app. lia.
Qed.

Lemma prune_scan_down (l pre : list V) v zs :
  l = pre ++ v :: zs -> forallb is_zero zs = true -> is_zero v = false ->
  scan (-1) l (prune_fuel l) (Py.len l - 1) = Ok (Py.len pre).
Proof.
  intros -> Hz Hv.
  replace (Py.len (pre ++ v :: zs) - 1)
    with (Py.len pre + Z.of_nat (length zs))
    by (unfold Py.len; rewrite length_app; cbn [length]; lia).
  apply scan_down_hit; try assumption; [lia |].
  unfold prune_fuel. rewrite length_app. cbn [length]. lia.
Qed.

Lemma getitem_last_index (l : list V) a :
  Py.getitem (l ++ [a]) (Py.len (l ++ [a]) - 1) = Some a.
Proof.
  unfold Py.len. rewrite length_app. cbn [length].
  rewrite getitem_nonneg by lia.
  replace (Z.to_nat (Z.of_nat (length l + 1) - 1)) with (length l) by lia.
  rewrite nth_error_app2 by lia. now rewrite Nat.sub_diag.
Qed.

Lemma clamp_le (A : Type) (l : list A) (i : nat) :
  (i <= length l)%nat -> Py.clamp l (Z.of_nat i) = i.
Proof.
  intros H. unfold Py.clamp, Py.len.
  destruct (Z.ltb_spec (Z.of_nat i) 0); lia.
Qed.

(** What [prune] returns on a sequence with a nonzero value, whatever
    the length of its index list. *)
Lemma prune_nonzero (s : Sequence V) :
  forallb is_zero (vals s) = false ->
  exists m1 m2 : nat,
    first_nonzero_at (vals s) m1 /\ last_nonzero_at (vals s) m2
    /\ (m1 <= m2 < length (vals s))%nat
    /\ prune s =
       Ok (mkSequence
             (firstn (m2 + 1 - m1) (skipn m1 (vals s)))
             (if (m2 + 1 =? length (vals s))%nat
              then Py.slice_from (n s) (Z.of_nat m1)
              else Py.slice (n s) (Z.of_nat m1) (Z.of_nat m2 + 1))
             None false false).
Proof.
  intros Hnz.
  destruct (split_first_nonzero _ Hnz) as (zs1 & v1 & rest & E1 & Hz1 & Hv1).
  destruct (split_last_nonzero _ Hnz) as (pre & v2 & zs2 & E2 & Hz2 & Hv2).
  exists (length zs1), (length pre).
  assert (Hn1 : nth_error (vals s) (length zs1) = Some v1).
  { rewrite E1, nth_error_app2 by lia. now rewrite Nat.sub_diag. }
  assert (Hn2 : nth_error (vals s) (length pre) = Some v2).
  { rewrite E2, nth_error_app2 by lia. now rewrite Nat.sub_diag. }
  assert (Hbefore : forall j v, (j < length zs1)%nat ->
            nth_error (vals s) j = Some v -> is_zero v = true).
  { intros j v Hj Hv. rewrite E1 in Hv.
    rewrite nth_error_app1 in Hv by exact Hj.
    exact (nth_error_forall_zero _ _ _ Hz1 Hv). }
  assert (Hafter : forall j v, (length pre < j)%nat ->
            nth_error (vals s) j = Some v -> is_zero v = true).
  { intros j v Hj Hv. rewrite E2 in Hv.
    rewrite nth_error_app2 in Hv by lia.
    destruct (j - length pre)%nat as [|k] eqn:Hk; [lia |].
    cbn in Hv. exact (nth_error_forall_zero _ _ _ Hz2 Hv). }
  assert (Hle : (length zs1 <= length pre)%nat).
  { destruct (Nat.le_gt_cases (length zs1) (length pre)) as [H|H];
      [exact H |].
    pose proof (Hbefore _ _ H Hn2). congruence. }
  assert (Hlen : length (vals s) = (length pre + 1 + length zs2)%nat).
  { rewrite E2, length_app. cbn [length]. lia. }
  split; [split; [now exists v1 | exact Hbefore] |].
  split; [split; [now exists v2 | exact Hafter] |].
  split; [lia |].
  unfold prune.
  rewrite (prune_scan_up _ _ _ _ E1 Hz1 Hv1). cbn [bind].
  destruct (exists_last (l := v2 :: zs2)) as (body & z & Ez);
    [discriminate |].
  assert (Elast : vals s = (pre ++ body) ++ [z]).
  { rewrite E2, Ez. now rewrite app_assoc. }
  assert (Hg : Py.getitem (vals s) (Py.len (vals s) - 1) = Some z).
  { rewrite Elast. apply getitem_last_index. }
  rewrite Hg. cbn [of_option bind].
  destruct zs2 as [|z0 zs2]; cbn [length] in Hlen.
  - (* the last element is nonzero *)
    assert (z = v2).
    { destruct body as [|b body]; cbn in Ez.
      - congruence.
      - destruct body; discriminate. }
    subst z. rewrite Hv2. cbn [negb]. unfold new_seq. do 2 f_equal.
    + unfold Py.slice_from. rewrite clamp_le by lia.
      rewrite firstn_all2; [reflexivity |]. rewrite length_skipn. lia.
    + replace (length pre + 1 =? length (vals s))%nat with true
        by (symmetry; apply Nat.eqb_eq; cbn in Hlen; lia).
      reflexivity.
  - (* trailing zeros *)
    assert (Hzz : is_zero z = true).
    { assert (Hin : In z (z0 :: zs2)).
      { destruct body as [|b body]; cbn in Ez; [discriminate |].
        injection Ez as _ Ez. rewrite Ez. apply in_or_app. right.
        now left. }
      rewrite forallb_forall in Hz2. now apply Hz2. }
    rewrite Hzz. cbn [negb].
    rewrite (prune_scan_down _ _ _ _ E2 Hz2 Hv2). cbn [bind].
    unfold new_seq, Py.len. do 2 f_equal.
    + unfold Py.slice.
      replace (Z.of_nat (length pre) + 1)
        with (Z.of_nat (length pre + 1)) by lia.
      rewrite !clamp_le by lia. reflexivity.
    + replace (length pre + 1 =? length (vals s))%nat with false
        by (symmetry; apply Nat.eqb_neq; cbn in Hlen; lia).
      reflexivity.
Qed.

Lemma prune_all_zero (s : Sequence V) :
  forallb is_zero (vals s) = true -> prune s = Raise IndexError.
Proof.
  intros Hz. unfold prune.
  pose proof (scan_up_zeros [] (vals s) (prune_fuel (vals s)) Hz) as H.
  cbn [app] in H. change (Py.len []) with 0 in H.
  rewrite H; [reflexivity |]. unfold prune_fuel. lia.
Qed.

(** The loop bound of the model is never reached. *)
Lemma prune_never_exhausts (s : Sequence V) :
  prune s <> Raise FuelExhausted.
Proof.
  destruct (forallb is_zero (vals s)) eqn:Hz.
  - rewrite (prune_all_zero _ Hz). discriminate.
  - destruct (prune_nonzero _ Hz) as (m1 & m2 & _ & _ & _ & ->).
    discriminate.
Qed.

Lemma prune_total_iff_nonzero_aux (s : Sequence V) :
  (forallb is_zero (vals s) = true -> prune s = Raise IndexError)
  /\ ((exists r, prune s = Ok r) -> forallb is_zero (vals s) = false).
Proof.
  split; [apply prune_all_zero |].
  intros [r Hr]. destruct (forallb is_zero (vals s)) eqn:Hz; [| reflexivity].
  rewrite (prune_all_zero _ Hz) in Hr. discriminate.
Qed.

(** C10.  [prune] returns normally exactly when the sequence holds a
    nonzero value.  On an all-zero (or empty) sequence the unguarded
    leading-zero scan reaches position [len(vals)], one past the end,
    and the call ends in IndexError.  Otherwise the result is the slice
    from the first to the last nonzero element, with the indices of
    these positions. *)
Theorem prune_total_iff_nonzero (s : Sequence V) :
  (forallb is_zero (vals s) = true ->
     Py.getitem (vals s) (Py.len (vals s)) = None
     /\ scan 1 (vals s) (prune_fuel (vals s)) 0 = Raise IndexError
     /\ prune s = Raise IndexError)
  /\ ((exists r, prune s = Ok r) <-> forallb is_zero (vals s) = false)
  /\ (forallb is_zero (vals s) = false ->
      length (vals s) = length (n s) ->
      exists m1 m2 : nat,
        first_nonzero_at (vals s) m1 /\ last_nonzero_at (vals s) m2
        /\ prune s =
           Ok (mkSequence
                 (firstn (m2 + 1 - m1) (skipn m1 (vals s)))
                 (firstn (m2 + 1 - m1) (skipn m1 (n s)))
                 None false false)).
Proof.
  split; [| split].
  - intros Hz. split; [apply getitem_at_len |]. split.
    + pose proof (scan_up_zeros [] (vals s) (prune_fuel (vals s)) Hz) as H.
      apply H. unfold prune_fuel. lia.
    + now apply prune_all_zero.
  - split.
    + intros [r Hr]. destruct (forallb is_zero (vals s)) eqn:Hz;
        [| reflexivity].
      rewrite (prune_all_zero _ Hz) in Hr. discriminate.
    + intros Hnz. destruct (prune_nonzero _ Hnz) as (m1 & m2 & _ & _ & _ & H).
      eexists. exact H.
  - intros Hnz Hlen.
    destruct (prune_nonzero _ Hnz) as (m1 & m2 & H1 & H2 & Hm & H).
    exists m1, m2. split; [exact H1 |]. split; [exact H2 |].
    rewrite H. do 2 f_equal.
    destruct (Nat.eqb_spec (m2 + 1) (length (vals s))) as [E|E].
    + unfold Py.slice_from. rewrite clamp_le by lia.
      rewrite firstn_all2; [reflexivity |]. rewrite length_skipn. lia.
    + unfold Py.slice.
      replace (Z.of_nat m2 + 1) with (Z.of_nat (m2 + 1)) by lia.
      rewrite !clamp_le by lia. reflexivity.
Qed.

End Prune.

Lemma prune_total_iff_nonzero_witness :
  forallb is_zero (vals (qseq [0; 0; 1; 2; 3; 0] None None)) = false
  /\ exists r, prune (qseq [0; 0; 1; 2; 3; 0] None None) = Ok r.
Proof.
  split; [vm_compute; reflexivity |].
  apply (proj2 (proj1 (proj2
           (prune_total_iff_nonzero (qseq [0; 0; 1; 2; 3; 0] None None))))).
  vm_compute. reflexivity.
Defined.

(** The example of the docstring, [{0, 0, 1, 2, 3, 0} -> {1, 2, 3}]. *)
Example prune_docstring :
  prune (qseq [0; 0; 1; 2; 3; 0] None None)
  = Ok (qseq [1; 2; 3] (Some [2; 3; 4]) None).
Proof. vm_compute. reflexivity. Qed.

(** ** [zeropad] *)

Section Zeropad.

Context {V : Type} `{SV : ScalarValue V}.

(** What [zeropad] computes: the upper bound of the appended index
    range is the new number of values, whatever the last index is. *)
Lemma zeropad_unfold (s : Sequence V) (M last : Z) :
  Py.getitem (n s) (-1) = Some last ->
  zeropad s M =
  Ok (mkSequence (vals s ++ repeat sv_zero (Z.to_nat M))
        (n s ++ Py.range (last + 1) (Py.len (vals s) + Z.max M 0))
        (var s) false false).
Proof.
  intros H. unfold zeropad. rewrite H. cbn [of_option bind].
  unfold new_seq. do 3 f_equal.
  f_equal. unfold Py.len. rewrite length_app, repeat_length. lia.
Qed.

Lemma zeropad_empty (s : Sequence V) (M : Z) :
  n s = [] -> zeropad s M = Raise IndexError.
Proof. intros H. unfold zeropad. rewrite H. reflexivity. Qed.

Lemma range_last a b : a < b -> Py.getitem (Py.range a b) (-1) = Some (b - 1).
Proof.
  intros H. replace b with ((b - 1) + 1) at 1 by lia.
  rewrite range_snoc by lia. apply getitem_last.
Qed.

(** On zero-based indices the padded sequence is zero-based again. *)
Lemma zeropad_zero_based (s : Sequence V) (M : Z) :
  vals s <> [] -> zero_based s ->
  zeropad s M =
  Ok (mkSequence (vals s ++ repeat sv_zero (Z.to_nat M))
        (Py.range 0 (Py.len (vals s) + Z.max M 0)) (var s) false false).
Proof.
  intros Hne Hz.
  assert (Hlen : 0 < Py.len (vals s)).
  { unfold Py.len. destruct (vals s); [congruence | cbn; lia]. }
  rewrite (zeropad_unfold s M (Py.len (vals s) - 1)).
  - do 2 f_equal. rewrite Hz.
    replace (Py.len (vals s) - 1 + 1) with (Py.len (vals s)) by lia.
    symmetry. apply range_app; lia.
  - rewrite Hz. now apply range_last.
Qed.

End Zeropad.

(** C5.  [zeropad] takes the upper bound of the appended indices from the
    new length instead of from the last index: on [{1, _2, 3, 4}]
    (indices -1..2) one appended zero comes with two appended indices,
    where appending contiguously from [last_index + 1] gives one. *)
Theorem zeropad_shifted_indices :
  let s := qseq [1; 2; 3; 4] (Some [-1; 0; 1; 2]) None in
  exists r,
    zeropad s 1 = Ok r
    /\ vals r = vals s ++ [sv_zero]
    /\ n r = [-1; 0; 1; 2; 3; 4]
    /\ n r <> n s ++ Py.range (2 + 1) (2 + 1 + 1)
    /\ length (n r) <> length (vals r).
Proof.
  cbn zeta. eexists. split; [vm_compute; reflexivity |].
  cbn [vals n]. repeat split; try reflexivity; vm_compute; discriminate.
Qed.

(** The example of the specification: [Sequence([1,2,3]).zeropad(2)]. *)
Example zeropad_example :
  zeropad (qseq [1; 2; 3] None None) 2
  = Ok (qseq [1; 2; 3; 0; 0] (Some [0; 1; 2; 3; 4]) None).
Proof. vm_compute. reflexivity. Qed.

(** ** [lfilter] *)

(** C1.  [lfilter] differs from the recursion in two places.  A tap
    [x[n - m]] with [n < m] is a Python access with a negative index: it
    reads the stored element [len(x) + n - m] and is skipped only below
    [-len(x)]; with [b = [1, 1]] the first output of [{1, 2, 3}] is
    [1 + 3].  And the feedback taps are added, not subtracted: with
    [b = [1]], [a = [1, 1]] the input [{1, 1}] gives [{1, 2}]. *)
Theorem lfilter_wraps_and_adds_feedback :
  let of_Zs := map QcScalar.of_Z in
  (exists r,
     lfilter (qseq [1; 2; 3] None None) (Some (of_Zs [1; 1])) None = Ok r
     /\ vals r = of_Zs [4; 3; 5]
     /\ Recursion.lfilter (of_Zs [1; 1]) (of_Zs [1]) (of_Zs [1; 2; 3])
        = of_Zs [1; 3; 5])
  /\ (exists r,
     lfilter (qseq [1; 1] None None) (Some (of_Zs [1])) (Some (of_Zs [1; 1]))
       = Ok r
     /\ vals r = of_Zs [1; 2]
     /\ Recursion.lfilter (of_Zs [1]) (of_Zs [1; 1]) (of_Zs [1; 1])
        = of_Zs [1; 0]).
Proof.
  cbn zeta. split; eexists; (split; [vm_compute; reflexivity |]);
    split; vm_compute; reflexivity.
Qed.

(** ** [delay] *)

Lemma fold_min_lower_bound l a :
  (forall x, In x l -> a <= x) -> fold_left Z.min l a = a.
Proof.
  induction l as [|y l IH]; intros H; [reflexivity |]. cbn.
  rewrite Z.min_l by (apply H; now left).
  apply IH. intros x Hx. apply H. now right.
Qed.

Lemma min_range a b : a < b -> Py.min (Py.range a b) = Some a.
Proof.
  intros H. rewrite range_cons by exact H. cbn. f_equal.
  apply fold_min_lower_bound. intros x Hx.
  apply In_nth_error in Hx as [i Hi].
  apply range_nth_inv in Hi. lia.
Qed.





Section Delay.

Context {V : Type} `{SV : ScalarValue V}.



End Delay.



(** ** [enumerate] and element-wise comparison *)

Lemma nth_combine {A B} (l1 : list A) (l2 : list B) i :
  nth_error (combine l1 l2) i =
  match nth_error l1 i, nth_error l2 i with
  | Some a, Some b => Some (a, b)
  | _, _ => None
  end.
Proof.
  revert l2 i. induction l1 as [|a l1 IH]; intros l2 i.
  - destruct i; reflexivity.
  - destruct l2 as [|b l2]; destruct i as [|i]; cbn; try reflexivity.
    + now destruct (nth_error l1 i).
    + apply IH.
Qed.

Lemma nth_enumerate {A} (l : list A) i :
  nth_error (Py.enumerate l) i =
  option_map (pair (Z.of_nat i)) (nth_error l i).
Proof.
  unfold Py.enumerate. rewrite nth_combine.
  destruct (nth_error l i) as [v|] eqn:Hv.
  - assert (Hi : (i < length l)%nat) by (apply nth_error_Some; congruence).
    rewrite range_nth by (unfold Py.len; lia). reflexivity.
  - now destruct (nth_error (Py.range 0 (Py.len l)) i).
Qed.

Lemma enumerate_length {A} (l : list A) :
  length (Py.enumerate l) = length l.
Proof.
  unfold Py.enumerate. rewrite length_combine, range_length.
  unfold Py.len. lia.
Qed.



(** ** [ZT] and [IZT] *)

Section ZTransform.

Context {V : Type} `{SV : ScalarValue V} `{CE : ComplexExp V}
  `{ZK : ZToken V}.

Lemma zterms_length sign (l : list V) : length (zterms sign l) = length l.
Proof. unfold zterms. now rewrite length_map, enumerate_length. Qed.








End ZTransform.





(** ** Loops that cannot raise *)

Lemma mapM_pure {A B} (f : A -> result B) (g : A -> B) (l : list A) :
  (forall x, In x l -> f x = Ok (g x)) -> mapM f l = Ok (map g l).
Proof.
  induction l as [|a l IH]; intros H; [reflexivity |]. cbn.
  rewrite (H a) by now left. cbn.
  rewrite IH by (intros x Hx; apply H; now right). reflexivity.
Qed.

Lemma foldM_pure {A B} (f : B -> A -> result B) (g : B -> A -> B)
    (l : list A) (b : B) :
  (forall acc x, In x l -> f acc x = Ok (g acc x)) ->
  foldM f l b = Ok (fold_left g l b).
Proof.
  revert b. induction l as [|a l IH]; intros b H; [reflexivity |]. cbn.
  rewrite (H b a) by now left. cbn.
  apply IH. intros acc x Hx. apply H. now right.
Qed.

Lemma mapM_length {A B} (f : A -> result B) (l : list A) (r : list B) :
  mapM f l = Ok r -> length r = length l.
Proof.
  revert r. induction l as [|a l IH]; intros r H; cbn in H.
  - now injection H as <-.
  - destruct (f a); cbn in H; [| discriminate].
    destruct (mapM f l) as [bs|]; cbn in H; [| discriminate].
    injection H as <-. cbn. now rewrite (IH bs eq_refl).
Qed.

Lemma range_as_seq (N : nat) :
  Py.range 0 (Z.of_nat N) = map Z.of_nat (seq 0 N).
Proof.
  unfold Py.range. rewrite Z.sub_0_r, Nat2Z.id. apply map_ext.
  intros; lia.
Qed.

Lemma in_range a b x : In x (Py.range a b) -> a <= x < b.
Proof.
  intros H. apply In_nth_error in H as [i Hi].
  apply range_nth_inv in Hi. lia.
Qed.

Lemma getitem_nth {A} (l : list A) (i : Z) (d : A) :
  0 <= i < Py.len l -> Py.getitem l i = Some (nth (Z.to_nat i) l d).
Proof.
  intros H. rewrite getitem_nonneg by lia.
  apply nth_error_nth'. unfold Py.len in H. lia.
Qed.

Lemma fold_left_map {A B C} (f : C -> B -> C) (g : A -> B) (l : list A) c :
  fold_left f (map g l) c = fold_left (fun acc x => f acc (g x)) l c.
Proof.
  revert c. induction l as [|a l IH]; intros c; [reflexivity |]. cbn.
  apply IH.
Qed.

Lemma fold_left_ext_in {A B} (f g : B -> A -> B) (l : list A) b :
  (forall acc x, In x l -> f acc x = g acc x) ->
  fold_left f l b = fold_left g l b.
Proof.
  revert b. induction l as [|a l IH]; intros b H; [reflexivity |]. cbn.
  rewrite (H b a) by now left. apply IH.
  intros acc x Hx. apply H. now right.
Qed.

Section TransformLoops.

Context {V : Type} `{SV : ScalarValue V} `{CE : ComplexExp V}.

(** With at least as many indices as values, [DFT] and [IDFT] return,
    and their values are the sums by position. *)
Lemma DFT_unfold (s : Sequence V) :
  (length (vals s) <= length (n s))%nat ->
  DFT s =
  Ok (new_seq (map (dft_bin (vals s) (n s)) (seq 0 (length (vals s))))
        None (Some DomK) false false).
Proof.
  intros Hlen. unfold DFT.
  rewrite (mapM_pure _ (fun ki => dft_bin (vals s) (n s) (Z.to_nat ki))).
  - cbn [bind]. unfold Py.len. rewrite range_as_seq, map_map.
    do 2 f_equal. apply map_ext. intros a. now rewrite Nat2Z.id.
  - intros ki Hki. apply in_range in Hki.
    rewrite (foldM_pure _ (fun res ni =>
               sv_add res
                 (sv_mul (nth (Z.to_nat ni) (vals s) sv_zero)
                    (sv_expj (- (nth (Z.to_nat ni) (n s) 0 * ki))
                       (Py.len (vals s)))))).
    + f_equal. unfold dft_bin, sum_upto, Py.len.
      rewrite range_as_seq, fold_left_map.
      apply fold_left_ext_in. intros acc x _.
      rewrite Nat2Z.id, Z2Nat.id by lia. reflexivity.
    + intros acc ni Hni. apply in_range in Hni.
      rewrite (getitem_nth _ _ sv_zero) by lia.
      rewrite (getitem_nth _ _ 0) by (unfold Py.len in *; lia).
      reflexivity.
Qed.

Lemma IDFT_unfold (s : Sequence V) :
  (length (vals s) <= length (n s))%nat ->
  IDFT s =
  Ok (new_seq (map (idft_sample (vals s) (n s)) (seq 0 (length (vals s))))
        None (Some DomN) false false).
Proof.
  intros Hlen. unfold IDFT.
  rewrite (mapM_pure _ (fun ni => idft_sample (vals s) (n s) (Z.to_nat ni))).
  - cbn [bind]. unfold Py.len. rewrite range_as_seq, map_map.
    do 2 f_equal. apply map_ext. intros a. now rewrite Nat2Z.id.
  - intros ni Hni. apply in_range in Hni.
    rewrite (foldM_pure _ (fun res ki =>
               sv_add res
                 (sv_mul (nth (Z.to_nat ki) (vals s) sv_zero)
                    (sv_expj (ni * nth (Z.to_nat ki) (n s) 0)
                       (Py.len (vals s)))))).
    + cbn [bind]. f_equal. unfold idft_sample, sum_upto, Py.len. f_equal.
      rewrite range_as_seq, fold_left_map.
      apply fold_left_ext_in. intros acc x _.
      rewrite Nat2Z.id, Z2Nat.id by lia. reflexivity.
    + intros acc ki Hki. apply in_range in Hki.
      rewrite (getitem_nth _ _ sv_zero) by lia.
      rewrite (getitem_nth _ _ 0) by (unfold Py.len in *; lia).
      reflexivity.
Qed.

End TransformLoops.

(** ** The invariant along the operations *)



Lemma invariant_intro {V} (s : Sequence V) :
  length (vals s) = length (n s) -> strictly_increasing (n s) = true ->
  invariant s = true.
Proof.
  intros Hl Hi. unfold invariant. rewrite Hi, andb_true_r.
  now apply Nat.eqb_eq.
Qed.


Section Invariant.

Context {V : Type} `{SV : ScalarValue V}.


Lemma invariant_range (seq : list V) a v st et :
  invariant (mkSequence seq (Py.range a (a + Py.len seq)) v st et) = true.
Proof.
  apply invariant_intro; cbn [vals n].
  - rewrite range_length. unfold Py.len. lia.
  - apply increasing_range.
Qed.

Lemma lfilter_fold_length (x b a : list V) a0 (l : list (Z * V)) acc :
  length (fold_left (lfilter_step x b a a0) l acc)
  = (length acc + length l)%nat.
Proof.
  revert acc. induction l as [|p l IH]; intros acc; cbn [fold_left length].
  - lia.
  - rewrite IH. unfold lfilter_step. rewrite length_app. cbn. lia.
Qed.

Lemma lfilter_returns (s : Sequence V) b a :
  a <> Some [] ->
  exists r, lfilter s b a = Ok r
            /\ length (vals r) = length (vals s)
            /\ n r = n s /\ var r = var s.
Proof.
  intros Ha. unfold lfilter.
  destruct (match a with None => [sv_one] | Some l => l end)
    as [|a0 a'] eqn:Ea.
  - destruct a as [[|]|]; try discriminate. congruence.
  - cbn [Py.getitem Z.leb Z.compare Z.to_nat nth_error of_option bind].
    eexists. split; [reflexivity |]. cbn [new_seq vals n var].
    rewrite lfilter_fold_length, enumerate_length. cbn. auto.
Qed.


Lemma delay_invariant (s r : Sequence V) (q : Q) :
  delay s q = Ok r -> invariant r = true.
Proof.
  unfold delay, origin. destruct (negb _); [discriminate |].
  destruct (Py.min (n s)) as [mn|]; cbn [of_option bind]; [| discriminate].
  intros H. injection H as <-. apply invariant_intro; cbn [new_seq vals n].
  - rewrite range_length. unfold Py.len. lia.
  - apply increasing_range.
Qed.

Lemma zeropad_invariant (s : Sequence V) (M : Z) :
  vals s <> [] -> zero_based s ->
  exists r, zeropad s M = Ok r /\ invariant r = true /\ zero_based r
            /\ vals r = vals s ++ repeat sv_zero (Z.to_nat M).
Proof.
  intros Hne Hz. eexists. split; [now apply zeropad_zero_based |].
  assert (E : Py.len (vals s ++ repeat sv_zero (Z.to_nat M))
              = Py.len (vals s) + Z.max M 0).
  { unfold Py.len. rewrite length_app, repeat_length. lia. }
  split; [| split; [| reflexivity]].
  - rewrite <- E. apply (invariant_range _ 0).
  - unfold zero_based. cbn [vals n]. now rewrite E.
Qed.


End Invariant.


Section InvariantOfOperations.

Context {V : Type} `{SV : ScalarValue V} `{CE : ComplexExp V}
  `{ZK : ZToken V}.



End InvariantOfOperations.



(** ** [extent] *)

Lemma fold_min_attained l a m :
  In m (a :: l) -> (forall x, In x (a :: l) -> m <= x) ->
  fold_left Z.min l a = m.
Proof.
  revert a. induction l as [|y l IH]; intros a Hin Hlb.
  - destruct Hin as [->|[]]. reflexivity.
  - cbn [fold_left]. apply IH.
    + destruct Hin as [<-|[<-|Hin]].
      * assert (a <= y) by (apply Hlb; right; now left).
        left. lia.
      * assert (y <= a) by (apply Hlb; now left).
        left. lia.
      * now right.
    + intros x [<-|Hx].
      * assert (m <= a) by (apply Hlb; now left).
        assert (m <= y) by (apply Hlb; right; now left). lia.
      * apply Hlb. right. now right.
Qed.

Lemma fold_max_attained l a m :
  In m (a :: l) -> (forall x, In x (a :: l) -> x <= m) ->
  fold_left Z.max l a = m.
Proof.
  revert a. induction l as [|y l IH]; intros a Hin Hub.
  - destruct Hin as [->|[]]. reflexivity.
  - cbn [fold_left]. apply IH.
    + destruct Hin as [<-|[<-|Hin]].
      * assert (y <= a) by (apply Hub; right; now left).
        left. lia.
      * assert (a <= y) by (apply Hub; now left).
        left. lia.
      * now right.
    + intros x [<-|Hx].
      * assert (a <= m) by (apply Hub; now left).
        assert (y <= m) by (apply Hub; right; now left). lia.
      * apply Hub. right. now right.
Qed.

Section Extent.

Context {V : Type} `{SV : ScalarValue V}.

Lemma in_nonzero_positions (l : list V) (p : Z) :
  In p (nonzero_positions l) <->
  exists v, 0 <= p /\ nth_error l (Z.to_nat p) = Some v
            /\ is_zero v = false.
Proof.
  unfold nonzero_positions. rewrite in_map_iff. split.
  - intros [[i v] [E Hin]]. cbn in E. subst i.
    apply filter_In in Hin as [Hin Hnz]. cbn in Hnz.
    apply In_nth_error in Hin as [i Hi].
    rewrite nth_enumerate in Hi.
    destruct (nth_error l i) as [w|] eqn:Hw; [| discriminate].
    cbn in Hi. injection Hi as <- <-.
    exists w. rewrite Nat2Z.id. split; [lia |]. split; [exact Hw |].
    now destruct (is_zero w).
  - intros (v & Hp & Hv & Hnz). exists (p, v). split; [reflexivity |].
    apply filter_In. split; [| cbn; now rewrite Hnz].
    apply (nth_error_In _ (Z.to_nat p)).
    rewrite nth_enumerate, Hv. cbn. f_equal. f_equal. lia.
Qed.

(** The extent is the span between the first and the last nonzero
    position. *)
Lemma extent_first_last (s : Sequence V) (m1 m2 : nat) :
  first_nonzero_at (vals s) m1 -> last_nonzero_at (vals s) m2 ->
  extent s = Z.of_nat m2 - Z.of_nat m1 + 1.
Proof.
  intros [[v1 [Hv1 Hnz1]] Hbefore] [[v2 [Hv2 Hnz2]] Hafter].
  unfold extent.
  assert (Hin1 : In (Z.of_nat m1) (nonzero_positions (vals s))).
  { apply in_nonzero_positions. exists v1. rewrite Nat2Z.id.
    repeat split; [lia | assumption | assumption]. }
  assert (Hin2 : In (Z.of_nat m2) (nonzero_positions (vals s))).
  { apply in_nonzero_positions. exists v2. rewrite Nat2Z.id.
    repeat split; [lia | assumption | assumption]. }
  assert (Hbounds : forall p, In p (nonzero_positions (vals s)) ->
            Z.of_nat m1 <= p <= Z.of_nat m2).
  { intros p Hp. apply in_nonzero_positions in Hp as (v & Hp0 & Hv & Hnz).
    split.
    - destruct (Z_lt_le_dec p (Z.of_nat m1)) as [Hlt|]; [| assumption].
      assert (Hz := Hbefore (Z.to_nat p) v ltac:(lia) Hv). congruence.
    - destruct (Z_lt_le_dec (Z.of_nat m2) p) as [Hlt|]; [| assumption].
      assert (Hz := Hafter (Z.to_nat p) v ltac:(lia) Hv). congruence. }
  destruct (nonzero_positions (vals s)) as [|p w]; [contradiction |].
  rewrite (fold_max_attained w p (Z.of_nat m2) Hin2)
    by (intros x Hx; now apply Hbounds).
  rewrite (fold_min_attained w p (Z.of_nat m1) Hin1)
    by (intros x Hx; now apply Hbounds).
  reflexivity.
Qed.

Lemma extent_all_zero (s : Sequence V) :
  forallb is_zero (vals s) = true -> extent s = 0.
Proof.
  intros Hz. unfold extent.
  destruct (nonzero_positions (vals s)) as [|p w] eqn:E; [reflexivity |].
  assert (Hin : In p (nonzero_positions (vals s))) by (rewrite E; now left).
  apply in_nonzero_positions in Hin as (v & _ & Hv & Hnz).
  rewrite (nth_error_forall_zero _ _ _ Hz Hv) in Hnz. discriminate.
Qed.

End Extent.

(** ** [lfilter] as a FIR filter, and [convolve] *)

Section Fir.

Context {V : Type} `{SV : ScalarValue V}.

Lemma lfilter_fold_fir (x b : list V) (l : list (Z * V)) (acc : list V) :
  fold_left (lfilter_step x b [sv_one] sv_one) l acc
  = acc ++ map (fun p => fir_sample x b sv_one (fst p)) l.
Proof.
  revert acc. induction l as [|p l IH]; intros acc; cbn [fold_left map].
  - now rewrite app_nil_r.
  - rewrite IH. unfold lfilter_step at 1. cbn [Py.slice_from Py.clamp].
    cbn [Py.enumerate Py.slice_from skipn combine fold_left].
    replace (Py.enumerate (Py.slice_from [sv_one] 1)) with (@nil (Z * V))
      by reflexivity.
    cbn [fold_left]. now rewrite <- app_assoc.
Qed.

(** With [a = [1]] the output holds one FIR sample per stored position. *)
Lemma lfilter_fir (s : Sequence V) (b : list V) :
  exists r,
    lfilter s (Some b) (Some [sv_one]) = Ok r
    /\ length (vals r) = length (vals s)
    /\ n r = n s
    /\ forall i, (i < length (vals s))%nat ->
         nth_error (vals r) i
         = Some (fir_sample (vals s) b sv_one (Z.of_nat i)).
Proof.
  eexists. split; [reflexivity |]. cbn [new_seq vals n].
  rewrite lfilter_fold_fir. cbn [app].
  split; [now rewrite length_map, enumerate_length |].
  split; [reflexivity |].
  intros i Hi. rewrite nth_error_map, nth_enumerate.
  destruct (nth_error (vals s) i) eqn:E; [reflexivity |].
  apply nth_error_None in E. lia.
Qed.

Context {ZL : ZeroLaws V}.




End Fir.

Section FirExtent.

Context {V : Type} `{SV : ScalarValue V} {ZL : ZeroLaws V}.

Variables (xs h : list V) (p q qh : nat).
Hypothesis Hp : first_nonzero_at xs p.
Hypothesis Hq : last_nonzero_at xs q.
Hypothesis Hh0 : first_nonzero_at h 0.
Hypothesis Hqh : last_nonzero_at h qh.














End FirExtent.


Section Convolve.

Context {V : Type} `{SV : ScalarValue V}.




End Convolve.

(** The rational numbers satisfy the laws. *)
Lemma Qc_eq_bool_refl (a : Qc) : Qc_eq_bool a a = true.
Proof. unfold Qc_eq_bool. destruct (Qc_eq_dec a a); congruence. Qed.

Lemma QcScalar_zero_laws : ZeroLaws Qc.
Proof.
  split; cbn; unfold sv_zero, sv_one, is_zero; cbn;
    change (QcScalar.of_Z 0) with (Q2Qc 0);
    change (QcScalar.of_Z 1) with (Q2Qc 1).
  - apply Qcplus_0_l.
  - apply Qcplus_0_r.
  - apply Qcmult_0_l.
  - apply Qcmult_0_r.
  - intros v. unfold Qcdiv. field. discriminate.
  - intros v. split.
    + apply Qc_eq_bool_correct.
    + intros ->. apply Qc_eq_bool_refl.
  - intros a b Ha Hb.
    destruct (Qc_eq_bool (a * b) (Q2Qc 0)) eqn:E; [| reflexivity].
    apply Qc_eq_bool_correct in E.
    destruct (Qcmult_integral _ _ E) as [-> | ->].
    + now rewrite Qc_eq_bool_refl in Ha.
    + now rewrite Qc_eq_bool_refl in Hb.
Qed.


(** The example of the specification,
    [convolve({1,2,3}, {1,1}, "full")]. *)
Example convolve_example :
  convolve (qseq [1; 2; 3] None None) (map QcScalar.of_Z [1; 1]) "full"
  = Ok (qseq [1; 3; 5; 3] (Some [0; 1; 2; 3]) None).
Proof. vm_compute. reflexivity. Qed.


(** ** [DFT] and [IDFT] *)

Section DftRoundTrip.

Context {V : Type} `{SV : ScalarValue V} `{CE : ComplexExp V}.

(** The scalars form a field (with some subtraction, opposite and
    inverse) in which the integers embed additively. *)
Variables (vsub : V -> V -> V) (vopp : V -> V) (vinv : V -> V).
Hypothesis Vfield :
  field_theory sv_zero sv_one sv_add sv_mul vsub vopp sv_div vinv eq.
Hypothesis of_Z_succ :
  forall k : Z, 0 <= k -> sv_of_Z (k + 1) = sv_add (sv_of_Z k) sv_one.

Add Field Vfield_tactics : Vfield.










(** The length of the transform and the laws of [exp(2 j pi p / N)]:
    it is a character of the integers of period [N], and [1] is reached
    at the multiples of [N] only. *)
Variable Nn : nat.
Let N : Z := Z.of_nat Nn.
Let w (a : Z) : V := sv_expj a N.

Hypothesis expj_add : forall a b, sv_mul (w a) (w b) = w (a + b).
Hypothesis expj_0 : w 0 = sv_one.
Hypothesis expj_period : forall a, w (a + N) = w a.
Hypothesis expj_primitive : forall d, 0 < d < N -> w d <> sv_one.
Hypothesis N_nonzero : (0 < Nn)%nat -> sv_of_Z N <> sv_zero.










Hypothesis eqb_refl : forall a : V, sv_eqb a a = true.



End DftRoundTrip.






(** * Further properties of the class *)

(** ** The origin *)

Lemma nonempty_len {A} (l : list A) : l <> [] -> 0 < Py.len l.
Proof. unfold Py.len. destruct l; [congruence | cbn; lia]. Qed.

Section Origin.

Context {V : Type} `{SV : ScalarValue V}.

(** X1.  A non-empty sequence constructed with [origin = o] has the
    indices [-o .. N-1-o]; its [origin] is [o] again, and when [o] is a
    position of the list, that position carries the index 0. *)
Theorem origin_of_constructed (seq : list V) (o : Z) v st et :
  seq <> [] ->
  exists r,
    Sequence_init seq None (Some o) v st et = Ok r
    /\ vals r = seq
    /\ n r = Py.range (- o) (Py.len seq - o)
    /\ origin r = Ok o
    /\ (0 <= o < Py.len seq -> nth_error (n r) (Z.to_nat o) = Some 0).
Proof.
  intros Hne. pose proof (nonempty_len seq Hne) as Hlen.
  eexists. split; [reflexivity |]. unfold origin, new_seq. cbn [vals n].
  repeat split.
  - rewrite min_range by lia. cbn [of_option bind]. f_equal. lia.
  - intros Ho. rewrite range_nth by lia. f_equal. lia.
Qed.


End Origin.

Lemma origin_of_constructed_witness :
  exists r,
    Sequence_init (map QcScalar.of_Z [1; 2; 3; 4]) None (Some 1) None
      false false = Ok r
    /\ n r = [-1; 0; 1; 2]
    /\ origin r = Ok 1.
Proof.
  destruct (origin_of_constructed (map QcScalar.of_Z [1; 2; 3; 4]) 1 None
              false false) as (r & H & _ & Hn & Ho & _).
  - discriminate.
  - exists r. split; [exact H |]. split; [exact Hn | exact Ho].
Defined.


(** ** Delays and shifts *)


Section Shifts.

Context {V : Type} `{SV : ScalarValue V}.



(** X5.  On a sequence without indices [delay] raises ValueError
    whatever the delay: the non-integer test comes first, the minimum of
    the empty index list second. *)
Theorem delay_empty (s : Sequence V) (q : Q) :
  n s = [] -> exists msg, delay s q = Raise (ValueError msg).
Proof.
  intros Hn. unfold delay, origin. rewrite Hn.
  destruct (negb _); eexists; reflexivity.
Qed.

End Shifts.



Lemma delay_empty_witness :
  exists msg,
    delay (qseq [] None None) (inject_Z 1) = Raise (ValueError msg).
Proof. apply (delay_empty (qseq [] None None) (inject_Z 1)). reflexivity. Defined.

(** ** [prune] and [extent] *)

Section PruneExtent.

Context {V : Type} `{SV : ScalarValue V}.

Lemma nth_error_span (l : list V) (m1 k i : nat) :
  nth_error (firstn k (skipn m1 l)) i
  = if (i <? k)%nat then nth_error l (m1 + i) else None.
Proof. now rewrite nth_error_firstn, nth_error_skipn. Qed.

(** The values [prune] returns span the nonzero positions of its input
    and start and end with a nonzero value. *)
Lemma prune_result_span (s r : Sequence V) :
  prune s = Ok r ->
  exists m1 m2 : nat,
    first_nonzero_at (vals s) m1 /\ last_nonzero_at (vals s) m2
    /\ (m1 <= m2 < length (vals s))%nat
    /\ vals r = firstn (m2 + 1 - m1) (skipn m1 (vals s))
    /\ length (vals r) = (m2 - m1 + 1)%nat
    /\ first_nonzero_at (vals r) 0
    /\ last_nonzero_at (vals r) (m2 - m1)
    /\ var r = None /\ start_trunc r = false /\ end_trunc r = false.
Proof.
  intros Hr.
  assert (Hnz : forallb is_zero (vals s) = false).
  { apply (proj2 (prune_total_iff_nonzero_aux s)). now exists r. }
  destruct (prune_nonzero s Hnz) as (m1 & m2 & H1 & H2 & Hm & H).
  rewrite H in Hr. injection Hr as <-. cbn [vals var start_trunc end_trunc].
  exists m1, m2.
  destruct H1 as [[v1 [Hv1 Hnz1]] Hb]. destruct H2 as [[v2 [Hv2 Hnz2]] Ha].
  assert (Hlen : length (firstn (m2 + 1 - m1) (skipn m1 (vals s)))
                 = (m2 - m1 + 1)%nat)
    by (rewrite length_firstn, length_skipn; lia).
  assert (Hf : first_nonzero_at
                 (firstn (m2 + 1 - m1) (skipn m1 (vals s))) 0).
  { split.
    - exists v1. rewrite nth_error_span.
      destruct (Nat.ltb_spec 0 (m2 + 1 - m1)); [| lia].
      now rewrite Nat.add_0_r.
    - intros j v Hj. lia. }
  assert (Hl : last_nonzero_at
                 (firstn (m2 + 1 - m1) (skipn m1 (vals s))) (m2 - m1)).
  { split.
    - exists v2. rewrite nth_error_span.
      destruct (Nat.ltb_spec (m2 - m1) (m2 + 1 - m1)); [| lia].
      now replace (m1 + (m2 - m1))%nat with m2 by lia.
    - intros j v Hj Hv.
      assert (j < m2 - m1 + 1)%nat
        by (rewrite <- Hlen; apply nth_error_Some; congruence).
      lia. }
  split; [split; [now exists v1 | exact Hb] |].
  split; [split; [now exists v2 | exact Ha] |].
  split; [exact Hm |]. split; [reflexivity |]. split; [exact Hlen |].
  split; [exact Hf |]. split; [exact Hl |]. auto.
Qed.

(** X6.  [prune] is idempotent: whenever it returns, pruning the result
    returns the result itself. *)
Theorem prune_idempotent (s r : Sequence V) :
  prune s = Ok r -> prune r = Ok r.
Proof.
  intros Hr.
  destruct (prune_result_span s r Hr)
    as (m1 & m2 & _ & _ & Hm & _ & Hlen & Hf & Hl & Hvar & Hst & Het).
  assert (Hnz : forallb is_zero (vals r) = false).
  { destruct Hf as [[v [Hv Hvz]] _].
    destruct (forallb is_zero (vals r)) eqn:E; [| reflexivity].
    rewrite (nth_error_forall_zero _ _ _ E Hv) in Hvz. discriminate. }
  destruct (prune_nonzero r Hnz) as (p & q & Hp & Hq & Hpq & H).
  assert (p = 0)%nat as ->.
  { destruct Hf as [[v [Hv Hvz]] _]. destruct Hp as [_ Hbefore].
    destruct p as [|p]; [reflexivity |].
    rewrite (Hbefore 0%nat v ltac:(lia) Hv) in Hvz. discriminate. }
  assert (q = m2 - m1)%nat as ->.
  { destruct Hl as [[v [Hv Hvz]] _]. destruct Hq as [_ Hafter].
    destruct (Nat.lt_ge_cases q (m2 - m1)) as [Hlt|Hge]; [| lia].
    rewrite (Hafter (m2 - m1)%nat v Hlt Hv) in Hvz. discriminate. }
  rewrite H. f_equal. destruct r as [l ns vr st et].
  cbn [vals n var start_trunc end_trunc] in *. subst vr st et. f_equal.
  - cbn [skipn]. rewrite Nat.sub_0_r. apply firstn_all2. lia.
  - replace (m2 - m1 + 1 =? length l)%nat with true
      by (symmetry; apply Nat.eqb_eq; lia).
    unfold Py.slice_from. rewrite clamp_le by lia. reflexivity.
Qed.

(** X7.  [prune] keeps the extent, and the pruned sequence has exactly
    that many values. *)
Theorem prune_extent (s r : Sequence V) :
  prune s = Ok r ->
  extent r = extent s /\ Py.len (vals r) = extent s.
Proof.
  intros Hr.
  destruct (prune_result_span s r Hr)
    as (m1 & m2 & H1 & H2 & Hm & _ & Hlen & Hf & Hl & _).
  rewrite (extent_first_last s m1 m2 H1 H2).
  rewrite (extent_first_last r 0 (m2 - m1) Hf Hl).
  unfold Py.len. rewrite Hlen. lia.
Qed.

(** X8.  The extent lies between zero and the number of values, and it
    is zero exactly when every value is zero. *)
Theorem extent_bounds (s : Sequence V) :
  0 <= extent s <= Py.len (vals s)
  /\ (extent s = 0 <-> forallb is_zero (vals s) = true).
Proof.
  destruct (forallb is_zero (vals s)) eqn:Hz.
  - rewrite (extent_all_zero s Hz). unfold Py.len.
    split; [lia |]. split; reflexivity.
  - destruct (prune_nonzero s Hz) as (m1 & m2 & H1 & H2 & Hm & _).
    rewrite (extent_first_last s m1 m2 H1 H2). unfold Py.len.
    split; [lia |]. split; [lia | discriminate].
Qed.

End PruneExtent.

Lemma prune_idempotent_witness :
  prune (qseq [1; 0; 2] (Some [3; 4; 5]) None)
  = Ok (qseq [1; 0; 2] (Some [3; 4; 5]) None).
Proof.
  apply (prune_idempotent (qseq [0; 1; 0; 2; 0] (Some [2; 3; 4; 5; 6]) None)).
  vm_compute. reflexivity.
Defined.

Lemma prune_extent_witness :
  extent (qseq [1; 0; 2] (Some [3; 4; 5]) None)
  = extent (qseq [0; 1; 0; 2; 0] (Some [2; 3; 4; 5; 6]) None).
Proof.
  apply (prune_extent (qseq [0; 1; 0; 2; 0] (Some [2; 3; 4; 5; 6]) None)).
  vm_compute. reflexivity.
Defined.

(** ** Logical lookup along the operations *)

Section LookupAlong.

Context {V : Type} `{SV : ScalarValue V}.

(** Lookup in a sequence with contiguous indices is lookup by offset from
    the first index, and zero outside; a negative index does not count
    from the end. *)
Lemma getitem_contiguous (s : Sequence V) (n0 i : Z) :
  contiguous s n0 ->
  getitem s i
  = Ok (if (n0 <=? i) && (i <? n0 + Py.len (vals s))
        then nth (Z.to_nat (i - n0)) (vals s) sv_zero
        else sv_zero).
Proof.
  intros Hc. unfold getitem. rewrite Hc.
  destruct (Z.leb_spec n0 i) as [Hlo|Hlo]; cbn [andb].
  - destruct (Z.ltb_spec i (n0 + Py.len (vals s))) as [Hhi|Hhi].
    + rewrite (index_of_increasing _ (Z.to_nat (i - n0)) i).
      * cbn [of_option]. unfold Py.len in Hhi.
        rewrite (nth_error_nth' _ sv_zero) by lia. reflexivity.
      * apply increasing_range.
      * rewrite range_nth by lia. f_equal. lia.
    + rewrite index_not_in; [reflexivity |].
      intros Hin. apply in_range in Hin. lia.
  - rewrite index_not_in; [reflexivity |].
    intros Hin. apply in_range in Hin. lia.
Qed.

(** X9.  On a sequence built with the default indices the lookup of [i]
    is the [i]-th value for [0 <= i < N] and zero for every other [i]:
    unlike list access, a negative index does not wrap around. *)
Theorem getitem_default_indices (seq : list V) v st et (i : Z) :
  (forall x, 0 <= i -> nth_error seq (Z.to_nat i) = Some x ->
     getitem (new_seq seq None v st et) i = Ok x)
  /\ (i < 0 \/ Py.len seq <= i ->
      getitem (new_seq seq None v st et) i = Ok sv_zero).
Proof.
  assert (Hc : contiguous (new_seq seq None v st et) 0) by reflexivity.
  rewrite (getitem_contiguous _ 0 i Hc). cbn [new_seq vals]. split.
  - intros x Hi Hx.
    assert (Z.to_nat i < length seq)%nat
      by (apply nth_error_Some; congruence).
    destruct (Z.leb_spec 0 i); [| lia].
    destruct (Z.ltb_spec i (0 + Py.len seq)); [| unfold Py.len in *; lia].
    cbn [andb]. rewrite Z.sub_0_r. f_equal. now apply nth_error_nth.
  - intros [Hneg|Hbig].
    + destruct (Z.leb_spec 0 i); [lia | reflexivity].
    + destruct (Z.ltb_spec i (0 + Py.len seq)); [lia |].
      now rewrite andb_false_r.
Qed.


(** X11.  Zero padding does not change the signal: on a non-empty
    sequence with indices [0 .. N-1], every lookup in the padded sequence
    gives what it gives in the sequence, for every [M], negative ones
    included (they append nothing). *)
Theorem getitem_zeropad (s : Sequence V) (M : Z) :
  vals s <> [] -> zero_based s ->
  exists r,
    zeropad s M = Ok r
    /\ Py.len (vals r) = Py.len (vals s) + Z.max M 0
    /\ forall i, getitem r i = getitem s i.
Proof.
  intros Hne Hz. pose proof (nonempty_len _ Hne) as Hlen.
  destruct (zeropad_invariant s M Hne Hz) as (r & Hr & _ & Hzr & Hv).
  exists r. split; [exact Hr |].
  assert (Hl : Py.len (vals r) = Py.len (vals s) + Z.max M 0).
  { rewrite Hv. unfold Py.len. rewrite length_app, repeat_length. lia. }
  split; [exact Hl |]. intros i.
  rewrite (getitem_contiguous r 0 i) by exact Hzr.
  rewrite (getitem_contiguous s 0 i) by exact Hz.
  rewrite Hl, Z.sub_0_r. cbn [Z.add].
  destruct (Z.leb_spec 0 i) as [Hlo|Hlo]; [| reflexivity]. cbn [andb].
  destruct (Z.ltb_spec i (Py.len (vals s))) as [Hin|Hout].
  - destruct (Z.ltb_spec i (Py.len (vals s) + Z.max M 0)); [| lia].
    rewrite Hv, app_nth1 by (unfold Py.len in Hin; lia). reflexivity.
  - destruct (Z.ltb_spec i (Py.len (vals s) + Z.max M 0)); [| reflexivity].
    rewrite Hv, app_nth2 by (unfold Py.len in Hout; lia).
    f_equal. apply nth_repeat.
Qed.

End LookupAlong.

Lemma getitem_default_indices_witness :
  getitem (qseq [5; 6; 7] None None) (-1) = Ok sv_zero.
Proof.
  apply (proj2 (getitem_default_indices (map QcScalar.of_Z [5; 6; 7]) None
                  false false (-1))).
  left. reflexivity.
Defined.


Lemma getitem_zeropad_witness :
  exists r,
    zeropad (qseq [5; 6; 7] None None) 2 = Ok r
    /\ Py.len (vals r) = 3 + 2
    /\ forall i, getitem r i = getitem (qseq [5; 6; 7] None None) i.
Proof.
  apply (getitem_zeropad (qseq [5; 6; 7] None None) 2).
  - discriminate.
  - reflexivity.
Defined.

Lemma range_in a b x : a <= x < b -> In x (Py.range a b).
Proof.
  intros H. apply (nth_error_In _ (Z.to_nat (x - a))).
  rewrite range_nth by lia. f_equal. lia.
Qed.

Section Zeroextend.

Context {V : Type} `{SV : ScalarValue V}.

(** X12.  On a non-empty sequence with contiguous indices [zeroextend]
    returns the sequence on the index range from [min(0, first)] to
    [max(0, last)], which contains the index 0; every lookup gives what it
    gave before, and the tag and the truncation flags are kept. *)
Theorem zeroextend_includes_origin (s : Sequence V) (n0 : Z) :
  vals s <> [] -> contiguous s n0 ->
  exists r,
    zeroextend s = Ok r
    /\ n r = Py.range (Z.min 0 n0)
               (Z.max 0 (n0 + Py.len (vals s) - 1) + 1)
    /\ In 0 (n r)
    /\ (forall i, getitem r i = getitem s i)
    /\ var r = var s
    /\ start_trunc r = start_trunc s /\ end_trunc r = end_trunc s.
Proof.
  intros Hne Hc. pose proof (nonempty_len _ Hne) as Hlen.
  assert (Hfirst : Py.getitem (n s) 0 = Some n0).
  { rewrite Hc, range_cons by lia. reflexivity. }
  assert (Hlast : Py.getitem (n s) (-1) = Some (n0 + Py.len (vals s) - 1)).
  { rewrite Hc, range_last by lia. f_equal. }
  unfold zeroextend. rewrite Hfirst, Hlast. cbn [of_option bind].
  destruct (Z.gtb_spec n0 0) as [Hpos|Hnpos].
  - eexists. split; [reflexivity |]. unfold new_seq.
    cbn [vals n var start_trunc end_trunc].
    assert (Hr : Py.range 0 (n0 + Py.len (vals s) - 1 + 1)
                 = Py.range (Z.min 0 n0)
                     (Z.max 0 (n0 + Py.len (vals s) - 1) + 1))
      by (f_equal; lia).
    split; [exact Hr |]. split; [apply range_in; lia |].
    split; [| auto]. intros i.
    rewrite (getitem_contiguous _ 0 i); cbn [vals n].
    2: { unfold contiguous, new_seq. cbn [vals n]. f_equal. unfold Py.len.
         rewrite length_app, repeat_length. lia. }
    rewrite (getitem_contiguous s n0 i Hc).
    unfold Py.len in *. rewrite length_app, repeat_length, Z.sub_0_r.
    destruct (Z.leb_spec 0 i) as [H0|H0];
      destruct (Z.leb_spec n0 i) as [H1|H1];
      destruct (Z.ltb_spec i (0 + Z.of_nat (Z.to_nat n0 + length (vals s))))
        as [H2|H2];
      destruct (Z.ltb_spec i (n0 + Z.of_nat (length (vals s)))) as [H3|H3];
      cbn [andb]; try lia; try reflexivity.
    + rewrite app_nth2 by (rewrite repeat_length; lia).
      rewrite repeat_length. do 2 f_equal. lia.
    + rewrite app_nth1 by (rewrite repeat_length; lia).
      f_equal. apply nth_repeat.
  - destruct (Z.ltb_spec (n0 + Py.len (vals s) - 1) 0) as [Hneg|Hnneg].
    + eexists. split; [reflexivity |]. unfold new_seq.
      cbn [vals n var start_trunc end_trunc].
      split; [f_equal; lia |]. split; [apply range_in; lia |].
      split; [| auto]. intros i.
      rewrite (getitem_contiguous _ n0 i); cbn [vals n].
      2: { unfold contiguous, new_seq. cbn [vals n]. f_equal.
           unfold Py.len in *. rewrite length_app, repeat_length. lia. }
      rewrite (getitem_contiguous s n0 i Hc).
      unfold Py.len in *. rewrite length_app, repeat_length.
      destruct (Z.leb_spec n0 i) as [H1|H1]; cbn [andb]; [| reflexivity].
      destruct (Z.ltb_spec i
                  (n0 + Z.of_nat
                          (length (vals s)
                           + Z.to_nat (- (n0 + Z.of_nat (length (vals s)) - 1)))))
        as [H2|H2];
      destruct (Z.ltb_spec i (n0 + Z.of_nat (length (vals s)))) as [H3|H3];
      try lia; try reflexivity.
      * rewrite app_nth1 by lia. reflexivity.
      * rewrite app_nth2 by lia. f_equal. apply nth_repeat.
    + exists s. split; [now destruct s |].
      split; [rewrite Hc; f_equal; lia |].
      split; [rewrite Hc; apply range_in; lia | auto].
Qed.

End Zeroextend.

Lemma zeroextend_includes_origin_witness :
  exists r,
    zeroextend (qseq [5; 6] (Some [2; 3]) None) = Ok r
    /\ n r = [0; 1; 2; 3]
    /\ forall i, getitem r i = getitem (qseq [5; 6] (Some [2; 3]) None) i.
Proof.
  destruct (zeroextend_includes_origin (qseq [5; 6] (Some [2; 3]) None) 2)
    as (r & H & Hn & _ & Hg & _).
  - discriminate.
  - reflexivity.
  - exists r. split; [exact H |]. split; [exact Hn | exact Hg].
Defined.

(** ** Equality *)

Lemma list_eqb_length {A} (eqb : A -> A -> bool) (l1 l2 : list A) :
  list_eqb eqb l1 l2 = true -> length l1 = length l2.
Proof.
  revert l2. induction l1 as [|a l1 IH]; intros [|b l2] H; cbn in H;
    try discriminate; [reflexivity |].
  apply andb_prop in H as [_ H]. cbn. f_equal. now apply IH.
Qed.

Lemma list_eqb_Z_eq (l1 l2 : list Z) : list_eqb Z.eqb l1 l2 = true -> l1 = l2.
Proof.
  revert l2. induction l1 as [|a l1 IH]; intros [|b l2] H; cbn in H;
    try discriminate; [reflexivity |].
  apply andb_prop in H as [Hab H]. apply Z.eqb_eq in Hab.
  f_equal; [exact Hab | now apply IH].
Qed.

(** X13.  Two sequences that compare equal have the same index list and
    the same number of values; sequences at different offsets are never
    equal, whatever their values, and the tag and the truncation flags
    play no part. *)
Theorem Sequence_eq_indices {V} `{ScalarValue V} (s x : Sequence V) :
  (Sequence_eq s x = true ->
     n s = n x /\ length (vals s) = length (vals x))
  /\ (n s <> n x -> Sequence_eq s x = false)
  /\ (forall v1 st1 et1 v2 st2 et2,
       Sequence_eq (mkSequence (vals s) (n s) v1 st1 et1)
         (mkSequence (vals x) (n x) v2 st2 et2)
       = Sequence_eq s x).
Proof.
  assert (Hsound : Sequence_eq s x = true ->
            n s = n x /\ length (vals s) = length (vals x)).
  { unfold Sequence_eq. intros E. apply andb_prop in E as [Hv Hn].
    split; [now apply list_eqb_Z_eq | now apply (list_eqb_length sv_eqb)]. }
  split; [exact Hsound |]. split; [| reflexivity].
  intros Hne. destruct (Sequence_eq s x) eqn:E; [| reflexivity].
  destruct (Hsound eq_refl) as [Hn _]. contradiction.
Qed.

Lemma Sequence_eq_indices_witness :
  Sequence_eq (qseq [1; 2] (Some [0; 1]) None)
    (qseq [1; 2] (Some [1; 2]) None) = false.
Proof.
  apply (proj1 (proj2 (Sequence_eq_indices
                         (qseq [1; 2] (Some [0; 1]) None)
                         (qseq [1; 2] (Some [1; 2]) None)))).
  discriminate.
Defined.

(** ** [lfilter], its arguments and its taps *)

Lemma getitem_mod {A} (l : list A) (i : Z) (d : A) :
  - Py.len l <= i < Py.len l ->
  Py.getitem l i = Some (nth (Z.to_nat (i mod Py.len l)) l d).
Proof.
  intros Hi. destruct (Z_lt_le_dec i 0) as [Hneg|Hpos].
  - rewrite getitem_neg by lia.
    replace (i mod Py.len l) with (Py.len l + i).
    + apply nth_error_nth'. unfold Py.len in *. lia.
    + apply (Z.mod_unique _ _ (-1)); lia.
  - rewrite getitem_nonneg, Z.mod_small by lia.
    apply nth_error_nth'. unfold Py.len in *. lia.
Qed.

Lemma map_const {A B} (b : B) (l : list A) :
  map (fun _ => b) l = repeat b (length l).
Proof. induction l as [|a l IH]; [reflexivity |]. cbn. now rewrite IH. Qed.

Section LfilterMore.

Context {V : Type} `{SV : ScalarValue V}.

(** X14.  [lfilter] raises exactly when [a] is the empty list, with
    IndexError; otherwise no tap can make it raise, and it returns one
    value per input value with the indices and the tag of the input. *)
Theorem lfilter_total (s : Sequence V) (b a : option (list V)) :
  (a = Some [] -> lfilter s b a = Raise IndexError)
  /\ (a <> Some [] ->
      exists r,
        lfilter s b a = Ok r
        /\ length (vals r) = length (vals s)
        /\ n r = n s /\ var r = var s).
Proof.
  split.
  - intros ->. reflexivity.
  - apply lfilter_returns.
Qed.

(** X15.  With the default arguments ([b] empty, [a = [1]]) [lfilter]
    returns the zero scalar at every stored position. *)
Theorem lfilter_defaults (s : Sequence V) :
  lfilter s None None
  = Ok (mkSequence (repeat sv_zero (length (vals s))) (n s) (var s)
          false false).
Proof.
  unfold lfilter, new_seq. cbn [Py.getitem Z.leb Z.compare Z.to_nat
    nth_error of_option bind].
  rewrite lfilter_fold_fir. cbn [app]. do 2 f_equal.
  rewrite (map_ext _ (fun _ => sv_zero)) by (intros; reflexivity).
  now rewrite map_const, enumerate_length.
Qed.

(** X16.  With [a = [1]] and a [b] of at most [len(x) + 1] coefficients
    no tap is skipped: output sample [i] is the circular sum
    [sum_m b[m] * x[(i - m) mod N] / 1]. *)
Theorem lfilter_circular (s : Sequence V) (b : list V) :
  (length b <= length (vals s) + 1)%nat ->
  exists r,
    lfilter s (Some b) (Some [sv_one]) = Ok r
    /\ length (vals r) = length (vals s)
    /\ forall i, (i < length (vals s))%nat ->
         nth_error (vals r) i
         = Some (circular_sample (vals s) b sv_one (Z.of_nat i)).
Proof.
  intros Hb. destruct (lfilter_fir s b) as (r & Hr & Hlen & _ & Hy).
  exists r. split; [exact Hr |]. split; [exact Hlen |].
  intros i Hi. rewrite (Hy i Hi). f_equal.
  unfold fir_sample, circular_sample. apply fold_left_ext_in.
  intros acc [m b1] Hin. cbn [fst snd]. unfold fir_tap.
  apply In_nth_error in Hin as [k Hk].
  rewrite nth_enumerate in Hk.
  destruct (nth_error b k) as [bk|] eqn:Ebk; [| discriminate].
  cbn in Hk. injection Hk as <- <-.
  assert (k < length b)%nat by (apply nth_error_Some; congruence).
  rewrite (getitem_mod (vals s) _ sv_zero) by (unfold Py.len; lia).
  reflexivity.
Qed.

End LfilterMore.

Lemma lfilter_total_witness :
  exists r,
    lfilter (qseq [1; 2; 3] None None) (Some (map QcScalar.of_Z [1; 1]))
      (Some (map QcScalar.of_Z [2; 1])) = Ok r
    /\ n r = [0; 1; 2].
Proof.
  destruct (proj2 (lfilter_total (qseq [1; 2; 3] None None)
                     (Some (map QcScalar.of_Z [1; 1]))
                     (Some (map QcScalar.of_Z [2; 1]))))
    as (r & H & _ & Hn & _).
  - discriminate.
  - exists r. split; [exact H | exact Hn].
Defined.

Lemma lfilter_circular_witness :
  exists r,
    lfilter (qseq [1; 2; 3] None None) (Some (map QcScalar.of_Z [1; 1]))
      (Some [sv_one]) = Ok r
    /\ nth_error (vals r) 0
       = Some (circular_sample (map QcScalar.of_Z [1; 2; 3])
                 (map QcScalar.of_Z [1; 1]) sv_one 0).
Proof.
  destruct (lfilter_circular (qseq [1; 2; 3] None None)
              (map QcScalar.of_Z [1; 1])) as (r & H & _ & Hy).
  - cbn. lia.
  - exists r. split; [exact H |]. apply (Hy 0%nat). cbn. lia.
Defined.

(** ** The transforms and the domain call *)

Section Dispatch.

Context {V : Type} `{SV : ScalarValue V} `{CE : ComplexExp V}
  `{ZK : ZToken V}.

Lemma lands_in_trans d d' (s t r : Sequence V) :
  lands_in d' s t -> lands_in d t r -> lands_in d s r.
Proof. unfold lands_in. intros (H1 & _ & _) (H2 & H3 & H4). split; [congruence | auto]. Qed.

Lemma DFT_lands (s r : Sequence V) : DFT s = Ok r -> lands_in DomK s r.
Proof.
  unfold DFT. destruct (mapM _ _) as [res|] eqn:E; cbn [bind]; [| discriminate].
  intros H. injection H as <-. apply mapM_length in E.
  rewrite range_length in E. unfold lands_in, zero_based.
  cbn [new_seq vals n var]. unfold Py.len in *. repeat split. lia.
Qed.

Lemma IDFT_lands (s r : Sequence V) : IDFT s = Ok r -> lands_in DomN s r.
Proof.
  unfold IDFT. destruct (mapM _ _) as [res|] eqn:E; cbn [bind]; [| discriminate].
  intros H. injection H as <-. apply mapM_length in E.
  rewrite range_length in E. unfold lands_in, zero_based.
  cbn [new_seq vals n var]. unfold Py.len in *. repeat split. lia.
Qed.

Lemma zterms_lands sign d (s : Sequence V) :
  lands_in d s (new_seq (zterms sign (vals s)) None (Some d) false false).
Proof.
  unfold lands_in, zero_based. cbn [new_seq vals n var].
  now rewrite zterms_length.
Qed.

Lemma ZT_lands (s r : Sequence V) : ZT s = Ok r -> lands_in DomZ s r.
Proof.
  unfold ZT. destruct (var_is (var s) DomZ).
  - intros H. injection H as <-. apply zterms_lands.
  - destruct (var_is (var s) DomK).
    + destruct (IDFT s) as [t|] eqn:E; cbn [bind]; [| discriminate].
      intros H. injection H as <-.
      apply (lands_in_trans _ _ _ t _ (IDFT_lands s t E)), zterms_lands.
    + intros H. injection H as <-. apply zterms_lands.
Qed.

Lemma IZT_lands (s r : Sequence V) : IZT s = Ok r -> lands_in DomN s r.
Proof.
  unfold IZT. destruct (var_is (var s) DomN).
  - intros H. injection H as <-. apply zterms_lands.
  - destruct (var_is (var s) DomK).
    + destruct (IDFT s) as [t|] eqn:E; cbn [bind]; [| discriminate].
      intros H. injection H as <-.
      apply (lands_in_trans _ _ _ t _ (IDFT_lands s t E)), zterms_lands.
    + intros H. injection H as <-. apply zterms_lands.
Qed.

(** X17.  Given at least as many indices as values, each of [DFT],
    [IDFT], [ZT] and [IZT] returns, with as many values as its input, the
    indices [0 .. N-1] and the tag of its target domain, whatever the
    indices and the tag of the input. *)
Theorem transforms_land (s : Sequence V) :
  (length (vals s) <= length (n s))%nat ->
  (exists r, DFT s = Ok r /\ lands_in DomK s r)
  /\ (exists r, IDFT s = Ok r /\ lands_in DomN s r)
  /\ (exists r, ZT s = Ok r /\ lands_in DomZ s r)
  /\ (exists r, IZT s = Ok r /\ lands_in DomN s r).
Proof.
  intros Hle.
  assert (HD : exists r, DFT s = Ok r)
    by (eexists; apply (DFT_unfold s Hle)).
  assert (HI : exists r, IDFT s = Ok r)
    by (eexists; apply (IDFT_unfold s Hle)).
  assert (HZ : exists r, ZT s = Ok r).
  { unfold ZT. destruct HI as [t ->]. cbn [bind].
    destruct (var_is (var s) DomZ), (var_is (var s) DomK);
      eexists; reflexivity. }
  assert (HIZ : exists r, IZT s = Ok r).
  { unfold IZT. destruct HI as [t ->]. cbn [bind].
    destruct (var_is (var s) DomN), (var_is (var s) DomK);
      eexists; reflexivity. }
  destruct HD as [r1 H1], HI as [r2 H2], HZ as [r3 H3], HIZ as [r4 H4].
  split; [exists r1; split; [exact H1 | now apply DFT_lands] |].
  split; [exists r2; split; [exact H2 | now apply IDFT_lands] |].
  split; [exists r3; split; [exact H3 | now apply ZT_lands] |].
  exists r4; split; [exact H4 | now apply IZT_lands].
Qed.

(** X18.  A call with a domain variable never returns an element: what it
    returns is a sequence tagged with that domain and with as many values
    as the sequence called; when the sequence is in that domain already,
    it is a copy with the same values, indices and tag. *)
Theorem call_lands (s : Sequence V) (d : Domain) :
  (forall x, call s (Token d) = Ok x ->
     exists r, x = inl r /\ var r = Some d
               /\ length (vals r) = length (vals s))
  /\ (var s = Some d ->
      exists r, call s (Token d) = Ok (inl r)
                /\ vals r = vals s /\ n r = n s /\ var r = var s).
Proof.
  split.
  - intros x Hx.
    assert (Hcopy : forall d', var_is (var s) d' = true ->
              var (copy s) = Some d'
              /\ length (vals (copy s)) = length (vals s)).
    { intros d' Hd. split; [| reflexivity]. cbn [copy new_seq var].
      destruct (var s) as [v|]; [| discriminate]. cbn in Hd.
      now destruct v, d'. }
    destruct d; cbn [call] in Hx.
    + destruct (var_is (var s) DomN) eqn:En.
      * injection Hx as <-. exists (copy s). split; [reflexivity |].
        now apply Hcopy.
      * destruct (var_is (var s) DomK).
        -- destruct (IDFT s) as [r|] eqn:E; cbn [bind] in Hx; [| discriminate].
           injection Hx as <-. exists r.
           destruct (IDFT_lands s r E) as (Hl & _ & Hv). auto.
        -- destruct (IZT s) as [r|] eqn:E; cbn [bind] in Hx; [| discriminate].
           injection Hx as <-. exists r.
           destruct (IZT_lands s r E) as (Hl & _ & Hv). auto.
    + destruct (var_is (var s) DomK) eqn:Ek.
      * injection Hx as <-. exists (copy s). split; [reflexivity |].
        now apply Hcopy.
      * destruct (var_is (var s) DomZ).
        -- destruct (IZT s) as [t|] eqn:E; cbn [bind] in Hx; [| discriminate].
           destruct (DFT t) as [r|] eqn:E2; cbn [bind] in Hx; [| discriminate].
           injection Hx as <-. exists r.
           destruct (IZT_lands s t E) as (Hl & _ & _).
           destruct (DFT_lands t r E2) as (Hl2 & _ & Hv).
           split; [reflexivity |]. split; [exact Hv | congruence].
        -- destruct (DFT s) as [r|] eqn:E; cbn [bind] in Hx; [| discriminate].
           injection Hx as <-. exists r.
           destruct (DFT_lands s r E) as (Hl & _ & Hv). auto.
    + destruct (var_is (var s) DomZ) eqn:Ez.
      * injection Hx as <-. exists (copy s). split; [reflexivity |].
        now apply Hcopy.
      * destruct (var_is (var s) DomK).
        -- destruct (IDFT s) as [t|] eqn:E; cbn [bind] in Hx; [| discriminate].
           destruct (ZT t) as [r|] eqn:E2; cbn [bind] in Hx; [| discriminate].
           injection Hx as <-. exists r.
           destruct (IDFT_lands s t E) as (Hl & _ & _).
           destruct (ZT_lands t r E2) as (Hl2 & _ & Hv).
           split; [reflexivity |]. split; [exact Hv | congruence].
        -- destruct (ZT s) as [r|] eqn:E; cbn [bind] in Hx; [| discriminate].
           injection Hx as <-. exists r.
           destruct (ZT_lands s r E) as (Hl & _ & Hv). auto.
  - intros Hv. exists (copy s). split; [| now cbn].
    destruct d; cbn [call]; rewrite Hv; reflexivity.
Qed.

(** X19.  For a sequence that is not tagged [z], the call with [z] is
    [ZT]: the call's own detour through [IDFT] for the frequency domain
    is the one [ZT] takes. *)
Theorem call_z_is_ZT (s : Sequence V) :
  var_is (var s) DomZ = false ->
  call s (Token DomZ) = (r <- ZT s ;; Ok (inl r)).
Proof.
  intros Hz. cbn [call]. rewrite Hz.
  destruct (var_is (var s) DomK) eqn:Hk; [| reflexivity].
  unfold ZT at 2. rewrite Hz, Hk.
  destruct (IDFT s) as [t|] eqn:E; cbn [bind]; [| reflexivity].
  destruct (IDFT_lands s t E) as (_ & _ & Hv).
  unfold ZT. rewrite Hv. reflexivity.
Qed.

(** X20.  On a sequence without indices [zeropad] and [zeroextend] raise
    IndexError, and so does [convolve] in the modes "full" and "same",
    whatever the values and [h]. *)
Theorem empty_indices_raise (s : Sequence V) :
  n s = [] ->
  (forall M, zeropad s M = Raise IndexError)
  /\ zeroextend s = Raise IndexError
  /\ (forall h mode, mode = "full"%string \/ mode = "same"%string ->
        convolve s h mode = Raise IndexError).
Proof.
  intros Hn. split; [intros M; now apply zeropad_empty |]. split.
  - unfold zeroextend. now rewrite Hn.
  - intros h mode [-> | ->]; unfold convolve; cbn [String.eqb Ascii.eqb
      Bool.eqb]; now rewrite zeropad_empty.
Qed.

End Dispatch.

Lemma transforms_land_witness :
  exists r, ZT (lseq [1; 2; 3] (Some [4; 5; 6]) (Some DomK)) = Ok r
            /\ var r = Some DomZ /\ n r = Py.range 0 (Py.len (vals r)).
Proof.
  destruct (proj1 (proj2 (proj2 (transforms_land
              (lseq [1; 2; 3] (Some [4; 5; 6]) (Some DomK))
              ltac:(cbn; lia))))) as (r & H & _ & Hz & Hv).
  exists r. split; [exact H |]. split; [exact Hv | exact Hz].
Defined.

Lemma call_lands_witness :
  exists r,
    call (lseq [1; 2] None (Some DomZ)) (Token DomZ) = Ok (inl r)
    /\ vals r = vals (lseq [1; 2] None (Some DomZ)).
Proof.
  destruct (proj2 (call_lands (lseq [1; 2] None (Some DomZ)) DomZ) eq_refl)
    as (r & H & Hv & _).
  exists r. split; [exact H | exact Hv].
Defined.

Lemma call_z_is_ZT_witness :
  call (lseq [1; 1] None (Some DomK)) (Token DomZ)
  = (r <- ZT (lseq [1; 1] None (Some DomK)) ;; Ok (inl r)).
Proof. apply (call_z_is_ZT (lseq [1; 1] None (Some DomK))). reflexivity. Defined.

Lemma empty_indices_raise_witness :
  convolve (qseq [] None None) (map QcScalar.of_Z [1; 1]) "full"
  = Raise IndexError.
Proof.
  apply (proj2 (proj2 (empty_indices_raise (V := Qc) (qseq [] None None)
                         eq_refl))).
  now left.
Defined.

(** ** More on [convolve], [prune] and [zeropad] *)

Section MoreAlgebra.

Context {V : Type} `{SV : ScalarValue V}.

(** X21.  Whenever [h] has a nonzero value, [convolve] in mode "same"
    returns what it returns in mode "full": [max(Lx, Ly)] is [Ly].  When
    every value of [h] is zero, mode "same" pads nothing. *)
Theorem convolve_same_is_full (s : Sequence V) (h : list V) :
  (forallb is_zero h = false ->
     convolve s h "same" = convolve s h "full")
  /\ (forallb is_zero h = true ->
      convolve s h "same"
      = (x <- zeropad s 0 ;; lfilter x (Some h) (Some [sv_one]))).
Proof.
  set (hs := new_seq h None None false false).
  unfold convolve. cbn [String.eqb Ascii.eqb Bool.eqb]. fold hs. split.
  - intros Hnz.
    destruct (prune_nonzero hs Hnz) as (m1 & m2 & H1 & H2 & Hm & _).
    rewrite (extent_first_last hs m1 m2 H1 H2).
    rewrite Z.max_r by lia. reflexivity.
  - intros Hall. rewrite (extent_all_zero hs Hall), Z.max_l by lia.
    now rewrite Z.sub_diag.
Qed.

Lemma span_of_range (a b : Z) (m k : nat) :
  (Z.of_nat (m + k) <= b - a) ->
  firstn k (skipn m (Py.range a b))
  = Py.range (a + Z.of_nat m) (a + Z.of_nat m + Z.of_nat k).
Proof.
  intros H. apply nth_error_ext. intros i.
  rewrite nth_error_firstn, nth_error_skipn.
  destruct (Nat.ltb_spec i k) as [Hi|Hi].
  - rewrite !range_nth by lia. f_equal. lia.
  - symmetry. apply nth_error_None. rewrite range_length. lia.
Qed.

(** X22.  Pruning does not change the signal: on a sequence with
    contiguous indices and a nonzero value, over scalars whose comparison
    with zero is exact, every lookup in the pruned sequence gives what it
    gives in the sequence. *)
Theorem getitem_prune (ZL : ZeroLaws V) (s : Sequence V) (n0 : Z) :
  contiguous s n0 -> forallb is_zero (vals s) = false ->
  exists r,
    prune s = Ok r /\ forall i, getitem r i = getitem s i.
Proof.
  intros Hc Hnz.
  destruct (prune_nonzero s Hnz) as (m1 & m2 & H1 & H2 & Hm & H).
  assert (Hn : (if (m2 + 1 =? length (vals s))%nat
                then Py.slice_from (n s) (Z.of_nat m1)
                else Py.slice (n s) (Z.of_nat m1) (Z.of_nat m2 + 1))
               = Py.range (n0 + Z.of_nat m1)
                   (n0 + Z.of_nat m1 + Z.of_nat (m2 + 1 - m1))).
  { assert (Hl : length (n s) = length (vals s))
      by (rewrite Hc, range_length; unfold Py.len; lia).
    rewrite <- (span_of_range n0 (n0 + Py.len (vals s)))
      by (unfold Py.len; lia).
    rewrite <- Hc.
    destruct (Nat.eqb_spec (m2 + 1) (length (vals s))) as [E|E].
    - unfold Py.slice_from. rewrite clamp_le by lia.
      rewrite firstn_all2; [reflexivity |]. rewrite length_skipn. lia.
    - unfold Py.slice.
      replace (Z.of_nat m2 + 1) with (Z.of_nat (m2 + 1)) by lia.
      rewrite !clamp_le by lia. reflexivity. }
  rewrite Hn in H. eexists. split; [exact H |]. intros i.
  rewrite (getitem_contiguous _ (n0 + Z.of_nat m1) i).
  2: { unfold contiguous. cbn [vals n]. f_equal. unfold Py.len.
       rewrite length_firstn, length_skipn. lia. }
  rewrite (getitem_contiguous s n0 i Hc). cbn [vals]. f_equal.
  unfold Py.len. rewrite length_firstn, length_skipn.
  replace (Init.Nat.min (m2 + 1 - m1) (length (vals s) - m1))
    with (m2 + 1 - m1)%nat by lia.
  destruct H1 as [_ Hbefore]. destruct H2 as [_ Hafter].
  assert (Hout : forall j, (j < m1 \/ m2 < j)%nat ->
            nth j (vals s) sv_zero = sv_zero).
  { intros j Hj. destruct (nth_error (vals s) j) as [v|] eqn:Ev.
    - rewrite (nth_error_nth _ _ _ Ev). apply is_zero_exact.
      destruct Hj as [Hj|Hj]; [exact (Hbefore j v Hj Ev)
                              | exact (Hafter j v Hj Ev)].
    - apply nth_overflow. now apply nth_error_None. }
  destruct (Z.leb_spec (n0 + Z.of_nat m1) i) as [Hlo|Hlo];
    destruct (Z.ltb_spec i (n0 + Z.of_nat m1 + Z.of_nat (m2 + 1 - m1)))
      as [Hhi|Hhi];
    destruct (Z.leb_spec n0 i) as [Hlo'|Hlo'];
    destruct (Z.ltb_spec i (n0 + Z.of_nat (length (vals s)))) as [Hhi'|Hhi'];
    cbn [andb]; try lia; try reflexivity.
  - apply nth_error_nth. rewrite nth_error_span.
    destruct (Nat.ltb_spec (Z.to_nat (i - (n0 + Z.of_nat m1)))
                (m2 + 1 - m1)); [| lia].
    replace (m1 + Z.to_nat (i - (n0 + Z.of_nat m1)))%nat
      with (Z.to_nat (i - n0)) by lia.
    apply nth_error_nth'. lia.
  - symmetry. apply Hout. lia.
  - symmetry. apply Hout. lia.
Qed.

(** X23.  Zero padding keeps the extent, given that the zero scalar
    compares equal to zero. *)
Theorem zeropad_extent (s r : Sequence V) (M : Z) :
  is_zero sv_zero = true -> zeropad s M = Ok r -> extent r = extent s.
Proof.
  intros Hzero Hr. unfold zeropad in Hr.
  destruct (Py.getitem (n s) (-1)) as [last|]; cbn [of_option bind] in Hr;
    [| discriminate].
  injection Hr as <-. set (k := Z.to_nat M).
  assert (Hpad : forallb is_zero (repeat sv_zero k) = true).
  { apply forallb_forall. intros x Hx. apply repeat_spec in Hx. now subst. }
  destruct (forallb is_zero (vals s)) eqn:Hz.
  - rewrite (extent_all_zero s Hz). apply extent_all_zero.
    cbn [new_seq vals]. now rewrite forallb_app, Hz, Hpad.
  - destruct (prune_nonzero s Hz) as (m1 & m2 & H1 & H2 & Hm & _).
    rewrite (extent_first_last s m1 m2 H1 H2).
    apply extent_first_last; cbn [new_seq vals].
    + destruct H1 as [[v [Hv Hvz]] Hb]. split.
      * exists v. rewrite nth_error_app1 by lia. auto.
      * intros j w Hj Hw. rewrite nth_error_app1 in Hw by lia.
        exact (Hb j w Hj Hw).
    + destruct H2 as [[v [Hv Hvz]] Ha]. split.
      * exists v. rewrite nth_error_app1 by lia. auto.
      * intros j w Hj Hw.
        destruct (Nat.lt_ge_cases j (length (vals s))) as [Hin|Hout].
        -- rewrite nth_error_app1 in Hw by lia. exact (Ha j w Hj Hw).
        -- rewrite nth_error_app2 in Hw by lia.
           exact (nth_error_forall_zero _ _ _ Hpad Hw).
Qed.

End MoreAlgebra.

Lemma convolve_same_is_full_witness :
  convolve (qseq [1; 2; 3] None None) (map QcScalar.of_Z [1; 1]) "same"
  = convolve (qseq [1; 2; 3] None None) (map QcScalar.of_Z [1; 1]) "full".
Proof.
  apply (proj1 (convolve_same_is_full (qseq [1; 2; 3] None None)
                  (map QcScalar.of_Z [1; 1]))).
  vm_compute. reflexivity.
Defined.

Lemma getitem_prune_witness :
  exists r,
    prune (qseq [0; 1; 2; 0] (Some [-1; 0; 1; 2]) None) = Ok r
    /\ forall i,
         getitem r i
         = getitem (qseq [0; 1; 2; 0] (Some [-1; 0; 1; 2]) None) i.
Proof.
  apply (getitem_prune QcScalar_zero_laws
           (qseq [0; 1; 2; 0] (Some [-1; 0; 1; 2]) None) (-1)).
  - reflexivity.
  - vm_compute. reflexivity.
Defined.

Lemma zeropad_extent_witness :
  extent (qseq [0; 1; 2; 0; 0] (Some [0; 1; 2; 3; 4]) None)
  = extent (qseq [0; 1; 2] None None).
Proof.
  apply (zeropad_extent (qseq [0; 1; 2] None None)
           (qseq [0; 1; 2; 0; 0] (Some [0; 1; 2; 3; 4]) None) 2).
  - vm_compute. reflexivity.
  - vm_compute. reflexivity.
Defined.
